(** * Wordle: the guess evaluator and the round controller of [main.py]

    A shallow embedding of [letter_freq], [color_guess], [read_input],
    [add_to_board] and [game], with the globals [LETTER_STATUS], [WORDLIST]
    and the standard input they work on, and the properties of the
    duplicate-letter colouring, of the letter legend and of the win/loss
    decision. *)

From Stdlib Require Import ZArith Ascii String.
From stdpp Require Import gmap strings list fin_maps.

Local Open Scope Z_scope.
Local Open Scope nat_scope.

(** ** Python values

    A [str] is a list of characters; a one-character [str] (what [guess[i]]
    returns, and what keys the dictionaries) is an [ascii]: the text is taken
    to be ASCII, on which [str.upper] keeps the length. Python [int]s are
    unbounded, so the frequency counters are in [Z]; positions are never
    negative here, so they are in [nat]. *)

Abbreviation word := (list ascii).

Definition chars (s : string) : word := list_ascii_of_string s.

(** ** Game settings (lines 14-15) *)

Definition TRIES_LIMIT : nat := 6.
Definition WORD_LENGTH : nat := 5.

(** ** The part of [rich] the program uses

    A [rich.text.Text] is a plain string with a list of style spans; a
    [Span] is the named tuple [(start, end, style)]. [Text.stylize] appends a
    span, [Text.stylize_before] inserts it in front of the others; both do
    nothing when the range is empty or starts after the text. When the text
    is rendered the styles of the spans that cover a cell are combined in
    list order, a later span overriding the colours of an earlier one. The
    three styles of [color_guess] all set both colours, so the style shown in
    a cell is the one of the last span covering it. *)

Inductive Style := green_style | yellow_style | no_style.

Record Span := mkSpan { span_start : nat; span_end : nat; span_style : Style }.

Record Text := mkText { plain : word; spans : list Span }.

Global Instance Style_eq_dec : EqDecision Style.
Proof. solve_decision. Defined.

Global Instance Span_eq_dec : EqDecision Span.
Proof. solve_decision. Defined.

Global Instance Text_eq_dec : EqDecision Text.
Proof. solve_decision. Defined.

(** [Text(s)] *)
Definition new_Text (s : word) : Text := mkText s [].

(** The span [stylize] and [stylize_before] add, if any: [end_ = None] is the
    default [end=None], which stands for the length of the text. *)
Definition stylize_span (sty : Style) (start : nat) (end_ : option nat) (t : Text)
  : option Span :=
  let len := length (plain t) in
  let e := default len end_ in
  if (len <=? start) || (e <=? start) then None
  else Some (mkSpan start (Nat.min len e) sty).

Definition stylize (sty : Style) (start : nat) (end_ : option nat) (t : Text) : Text :=
  match stylize_span sty start end_ t with
  | Some sp => mkText (plain t) (spans t ++ [sp])
  | None => t
  end.

Definition stylize_before (sty : Style) (start : nat) (end_ : option nat) (t : Text) : Text :=
  match stylize_span sty start end_ t with
  | Some sp => mkText (plain t) (sp :: spans t)
  | None => t
  end.

(** ** Classifications

    What a cell shows: nothing yet, or the classification behind its
    style (green = Correct, yellow = Present, gray = Absent). *)

Inductive Status := Unseen | Absent | Present | Correct.

Global Instance Status_eq_dec : EqDecision Status.
Proof. solve_decision. Defined.

Definition rank (c : Status) : nat :=
  match c with Unseen => 0 | Absent => 1 | Present => 2 | Correct => 3 end.

Definition status_of_style (sty : Style) : Status :=
  match sty with
  | green_style => Correct
  | yellow_style => Present
  | no_style => Absent
  end.

Definition covers (i : nat) (sp : Span) : Prop :=
  span_start sp ≤ i ∧ i < span_end sp.

Global Instance covers_dec i sp : Decision (covers i sp).
Proof. unfold covers. apply _. Defined.

(** The style rendered at cell [i]. *)
Definition style_at (t : Text) (i : nat) : option Style :=
  span_style <$> last (filter (covers i) (spans t)).

Definition status_at (t : Text) (i : nat) : Status :=
  from_option status_of_style Unseen (style_at t i).

(** The per-position classification a styled guess shows. *)
Definition classification (t : Text) : list Status :=
  status_at t <$> seq 0 (length (plain t)).

(** ** Exceptions, and computations over a mutable global state *)

Inductive exn := IndexError | KeyError | EOFError | OutOfFuel.

Inductive result (A : Type) :=
| Ok (a : A)
| Raise (e : exn).
Arguments Ok {A} a.
Arguments Raise {A} e.

Definition M (S A : Type) : Type := S → result (A * S).

Definition ret {S A} (a : A) : M S A := λ st, Ok (a, st).

Definition raise {S A} (e : exn) : M S A := λ _, Raise e.

Definition bind {S A B} (m : M S A) (k : A → M S B) : M S B :=
  λ st, match m st with
        | Ok (a, st') => k a st'
        | Raise e => Raise e
        end.

Notation "'let*' x ':=' m 'in' k" := (bind m (λ x, k))
  (at level 10, x pattern, m at level 100, k at level 200).

(** [for i in idxs: a = body(i, a)], [a] being the local variables the body
    updates. *)
Fixpoint for_each {S A} (idxs : list nat) (body : nat → A → M S A) (a : A) : M S A :=
  match idxs with
  | [] => ret a
  | i :: idxs' => let* a' := body i a in for_each idxs' body a'
  end.

(** [range(n)] *)
Definition range (n : nat) : list nat := seq 0 n.

(** [s[i]] on a string *)
Definition getitem {S} (s : word) (i : nat) : M S ascii :=
  match s !! i with
  | Some c => ret c
  | None => raise IndexError
  end.

(** [d[k]] on a dictionary *)
Definition getkey {S V} (d : gmap ascii V) (k : ascii) : M S V :=
  match d !! k with
  | Some v => ret v
  | None => raise KeyError
  end.

(** ** The globals and the standard input

    [WORDLIST] is filled once by [load_wordlist] and only read afterwards;
    [LETTER_STATUS] holds the legend, one [Text] per letter; [stdin] holds
    the lines the player will still type. *)

Record World := mkWorld {
  WORDLIST : list word;
  LETTER_STATUS : gmap ascii Text;
  stdin : list word
}.

Definition alphabet : word := chars "ABCDEFGHIJKLMNOPQRSTUVWXYZ".

(** [Text(f" {letter} ")] *)
Definition status_cell (letter : ascii) : Text :=
  new_Text [" "%char; letter; " "%char].

(** Line 18. *)
Definition LETTER_STATUS_init : gmap ascii Text :=
  list_to_map ((λ letter, (letter, status_cell letter)) <$> alphabet).

(** [LETTER_STATUS[letter].f()] for a method [f] that mutates the [Text] in
    place: every key holds a [Text] object of its own, so the mutation is an
    update of that entry. *)
Definition update_status (letter : ascii) (f : Text → Text) : M (gmap ascii Text) () :=
  λ status,
    match status !! letter with
    | Some t => Ok ((), <[letter := f t]> status)
    | None => Raise KeyError
    end.

(** The state of a letter in the legend: the style rendered on the letter
    itself, the middle cell of [" X "]. *)
Definition letter_status (status : gmap ascii Text) (letter : ascii) : Status :=
  match status !! letter with
  | Some t => status_at t 1
  | None => Unseen
  end.

(** ** [letter_freq] (lines 219-228) *)

Definition letter_freq (str : word) : gmap ascii Z :=
  foldl (λ freqs letter,
           match freqs !! letter with
           | Some n => <[letter := (n + 1)%Z]> freqs
           | None => <[letter := 1%Z]> freqs
           end) ∅ str.

(** ** [color_guess] (lines 150-216)

    The locals the two loops update are the styled guess and the remaining
    frequency budget; [LETTER_STATUS] is the global state. *)

Definition locals : Type := Text * gmap ascii Z.

(** [wordle_freq[letter] > 0] *)
Definition budget_left {S} (wordle_freq : gmap ascii Z) (letter : ascii) : M S bool :=
  let* n := getkey wordle_freq letter in ret (bool_decide (0 < n)%Z).

(** [wordle_freq[letter] -= 1] *)
Definition decrement {S} (wordle_freq : gmap ascii Z) (letter : ascii)
  : M S (gmap ascii Z) :=
  let* n := getkey wordle_freq letter in ret (<[letter := (n - 1)%Z]> wordle_freq).

(** Lines 192-198: the body of the loop that colours the exact matches.
    [and] evaluates its right operand only when the left one holds. *)
Definition green_body (guess wordle : word) (i : nat) (loc : locals)
  : M (gmap ascii Text) locals :=
  let '(pretty_guess, wordle_freq) := loc in
  let* letter := getitem guess i in
  let* w := getitem wordle i in
  let* cond := (if bool_decide (letter = w) then budget_left wordle_freq letter
                else ret false) in
  if cond : bool then
    let pretty_guess := stylize green_style i (Some (i + 1)) pretty_guess in
    let* _ := update_status letter (stylize green_style 0 None) in
    let* wordle_freq := decrement wordle_freq letter in
    ret (pretty_guess, wordle_freq)
  else ret loc.

(** Lines 201-214: the body of the loop that colours the other positions. *)
Definition rest_body (guess wordle : word) (i : nat) (loc : locals)
  : M (gmap ascii Text) locals :=
  let '(pretty_guess, wordle_freq) := loc in
  if bool_decide (mkSpan i (i + 1) green_style ∈ spans pretty_guess) then ret loc
  else
    let* letter := getitem guess i in
    let* cond := (if bool_decide (letter ∈ wordle) then budget_left wordle_freq letter
                  else ret false) in
    if cond : bool then
      let pretty_guess := stylize yellow_style i (Some (i + 1)) pretty_guess in
      let* _ := update_status letter (stylize_before yellow_style 0 None) in
      let* wordle_freq := decrement wordle_freq letter in
      ret (pretty_guess, wordle_freq)
    else
      let pretty_guess := stylize no_style i (Some (i + 1)) pretty_guess in
      let* _ := update_status letter (stylize_before no_style 0 None) in
      ret (pretty_guess, wordle_freq).

(** The two loops, the first one over any order of the positions. *)
Definition color_guess_in (order : list nat) (guess wordle : word)
  : M (gmap ascii Text) Text :=
  let pretty_guess := new_Text guess in
  let wordle_freq := letter_freq wordle in
  let* loc := for_each order (green_body guess wordle) (pretty_guess, wordle_freq) in
  let* loc := for_each (range WORD_LENGTH) (rest_body guess wordle) loc in
  ret (fst loc).

Definition color_guess (guess wordle : word) : M (gmap ascii Text) Text :=
  color_guess_in (range WORD_LENGTH) guess wordle.

(** ** [read_input] (lines 100-121) *)

Definition upper_char (c : ascii) : ascii :=
  let n := nat_of_ascii c in
  if (97 <=? n) && (n <=? 122) then ascii_of_nat (n - 32) else c.

(** [str.upper()], on ASCII text. *)
Definition upper (s : word) : word := upper_char <$> s.

(** The validation loop: one line of input per iteration, [EOFError] from
    [input()] when there is none left. *)
Fixpoint read_lines (wordlist : list word) (lines : list word) : result (word * list word) :=
  match lines with
  | [] => Raise EOFError
  | line :: lines' =>
      let guess := upper line in
      if bool_decide (length guess ≠ WORD_LENGTH) then read_lines wordlist lines'
      else if bool_decide (guess ∉ wordlist) then read_lines wordlist lines'
      else Ok (guess, lines')
  end.

Definition read_input (tries : nat) : M World word :=
  λ w, match read_lines (WORDLIST w) (stdin w) with
       | Ok (guess, lines') => Ok (guess, mkWorld (WORDLIST w) (LETTER_STATUS w) lines')
       | Raise e => Raise e
       end.

(** ** [add_to_board] (lines 124-147); what it prints is not modelled *)

(** A computation on [LETTER_STATUS] alone, run in the whole world. *)
Definition on_status {A} (m : M (gmap ascii Text) A) : M World A :=
  λ w, match m (LETTER_STATUS w) with
       | Ok (a, status) => Ok (a, mkWorld (WORDLIST w) status (stdin w))
       | Raise e => Raise e
       end.

(** [board[tries] = pretty_guess] raises [IndexError] out of range. *)
Definition add_to_board (guess wordle : word) (board : list Text) (tries : nat)
  : M World (list Text) :=
  let* pretty_guess := on_status (color_guess guess wordle) in
  if bool_decide (tries < length board) then ret (<[tries := pretty_guess]> board)
  else raise IndexError.

(** ** [game] (lines 72-97) *)

(** The loop of lines 89-97, with the board and [tries] as its variables. The
    fuel bounds the number of iterations; [game] gives it enough. *)
Fixpoint game_loop (fuel : nat) (wordle : word) (board : list Text) (tries : nat)
  : M World bool :=
  if bool_decide (tries < TRIES_LIMIT) then
    match fuel with
    | 0 => raise OutOfFuel
    | S fuel' =>
        let* guess := read_input tries in
        let* board := add_to_board guess wordle board tries in
        if bool_decide (guess = wordle) then ret true
        else game_loop fuel' wordle board (tries + 1)
    end
  else ret false.

Definition game (wordle : word) : M World bool :=
  let board := replicate TRIES_LIMIT (new_Text (chars "_____")) in
  game_loop TRIES_LIMIT wordle board 0.

(** ** Notions the properties are stated with *)

(** The number of occurrences of a letter in a string, [str.count(x)]. *)
Definition count (x : ascii) (s : word) : nat := length (filter (x =.) s).

(** The positions of a styled guess that hold letter [x] and show
    classification [c]. *)
Definition positions_of (guess : word) (t : Text) (x : ascii) (c : Status) : list nat :=
  filter (λ i, guess !! i = Some x ∧ status_at t i = c) (seq 0 (length guess)).

(** A word of the game: [WORD_LENGTH] letters of the uppercase alphabet. *)
Definition game_word (s : word) : Prop :=
  length s = WORD_LENGTH ∧ Forall (.∈ alphabet) s.

Global Instance game_word_dec s : Decision (game_word s).
Proof. unfold game_word. apply _. Defined.

(** Every letter of the alphabet has its entry in the legend. *)
Definition has_alphabet (status : gmap ascii Text) : Prop :=
  Forall (λ c, is_Some (status !! c)) alphabet.

Global Instance has_alphabet_dec status : Decision (has_alphabet status).
Proof. unfold has_alphabet. apply _. Defined.

(** The guesses [read_input] will hand to [game], in order: the lines that
    pass its validation, in upper case. *)
Definition submitted (wordlist : list word) (lines : list word) : list word :=
  filter (λ g, length g = WORD_LENGTH ∧ g ∈ wordlist) (upper <$> lines).

(** The state a computation left behind, if it returned. *)
Definition left_behind {S A} (r : result (A * S)) : option S :=
  match r with Ok (_, s) => Some s | Raise _ => None end.

(** A series of calls of [color_guess], each with its guess and its secret,
    as the calls of [add_to_board] make them one after the other. *)
Fixpoint color_guesses (calls : list (word * word)) : M (gmap ascii Text) (list Text) :=
  match calls with
  | [] => ret []
  | (guess, wordle) :: calls' =>
      let* pretty_guess := color_guess guess wordle in
      let* others := color_guesses calls' in
      ret (pretty_guess :: others)
  end.

(** The calls of one round: every guess against the same secret. *)
Definition round_calls (wordle : word) (guesses : list word) : list (word * word) :=
  (λ guess, (guess, wordle)) <$> guesses.

(** What a computation returned, if it did. *)
Definition returned {S A} (r : result (A * S)) : option A :=
  match r with Ok (a, _) => Some a | Raise _ => None end.

(** ** Notions of the proofs: how runs relate, and the invariants of the
    two loops *)

(** Two outcomes agree: the same exception, or the same value with related
    states. *)
Definition same_outcome {S A} (R : S → S → Prop) (r1 r2 : result (A * S)) : Prop :=
  match r1, r2 with
  | Ok (a1, s1), Ok (a2, s2) => a1 = a2 ∧ R s1 s2
  | Raise e1, Raise e2 => e1 = e2
  | _, _ => False
  end.

(** A decidable hypothesis on concrete words and legends, by evaluation. *)
Ltac by_computation := apply (bool_decide_unpack _); vm_compute; exact I.

Ltac unfold_monad :=
  cbv [bind ret raise getitem getkey budget_left decrement update_status] in *.

(** One iteration touches at most the entry of the letter at its position,
    by one of the three styling calls. *)
Definition legend_step (guess : word) (i : nat) (st st' : gmap ascii Text) : Prop :=
  st' = st ∨
  ∃ x t f, guess !! i = Some x ∧ st !! x = Some t ∧ st' = <[x := f t]> st ∧
           (f = stylize green_style 0 None ∨
            f = stylize_before yellow_style 0 None ∨
            f = stylize_before no_style 0 None).

(** How the legend after a call relates to the legend before it: the same
    keys, the entries of letters outside the guess untouched, every cell
    keeping its text and its spans with new ones around them, and no
    letter's status lowered. *)
Record legend_evolves (guess : word) (st st' : gmap ascii Text) : Prop := {
  evolves_dom : dom st' = dom st;
  evolves_frame : ∀ x, x ∉ guess → st' !! x = st !! x;
  evolves_cell : ∀ x t', st' !! x = Some t' →
    ∃ t before after, st !! x = Some t ∧ plain t' = plain t ∧
                      spans t' = before ++ spans t ++ after;
  evolves_rank : ∀ x, rank (letter_status st x) ≤ rank (letter_status st' x)
}.

Definition same_keys (s1 s2 : gmap ascii Text) : Prop := dom s1 = dom s2.

(** Every cell of the legend is long enough for a style over the whole cell
    to reach its letter (the cells are [" X "]). *)
Definition legend_ok (status : gmap ascii Text) : Prop :=
  map_Forall (λ _ t, 2 ≤ length (plain t)) status.

Global Instance legend_ok_dec status : Decision (legend_ok status).
Proof. unfold legend_ok. apply _. Defined.

Section Notions.
Variables (guess wordle : word) (order : list nat) (status0 : gmap ascii Text).

(** Position [j] holds letter [x] in both words. *)
Definition hit (x : ascii) (j : nat) : Prop :=
  guess !! j = Some x ∧ wordle !! j = Some x.

Global Instance hit_dec x j : Decision (hit x j).
Proof. unfold hit. apply _. Defined.

Definition exact (j : nat) : Prop :=
  is_Some (guess !! j) ∧ guess !! j = wordle !! j.

Global Instance exact_dec j : Decision (exact j).
Proof. unfold exact. apply _. Defined.

Definition hits (x : ascii) (l : list nat) : nat := length (filter (hit x) l).

Definition green_letter (l : list nat) (x : ascii) : Prop := Exists (hit x) l.

(** The positions the first loop coloured green. *)
Definition green_at (i : nat) : Prop := i ∈ order ∧ exact i.

Definition yellow (x : ascii) (pg : Text) (j : nat) : Prop :=
  guess !! j = Some x ∧ style_at pg j = Some yellow_style.

Global Instance yellow_dec x pg j : Decision (yellow x pg j).
Proof. unfold yellow. apply _. Defined.

Definition yellows (x : ascii) (pg : Text) (l : list nat) : nat :=
  length (filter (yellow x pg) l).

(** Letter [x] still has budget: the test of line 208. *)
Definition budget_open (wf : gmap ascii Z) (x : ascii) : Prop :=
  x ∈ wordle ∧ ∃ n, wf !! x = Some n ∧ (0 < n)%Z.

Record green_inv (done : list nat) (loc : locals) (st : gmap ascii Text) : Prop := {
  gi_plain : plain loc.1 = guess;
  gi_spans : ∀ i, mkSpan i (i + 1) green_style ∈ spans loc.1 ↔ i ∈ done ∧ exact i;
  gi_style : ∀ i, style_at loc.1 i
                  = if decide (i ∈ done ∧ exact i) then Some green_style else None;
  gi_freq : ∀ x, loc.2 !! x
                 = (λ n, n - Z.of_nat (hits x done))%Z <$> letter_freq wordle !! x;
  gi_keys : same_keys st status0;
  gi_cells : legend_ok st;
  gi_green : ∀ x, green_letter done x → letter_status st x = Correct;
  gi_other : ∀ x, ¬ green_letter done x → st !! x = status0 !! x
}.

Record rest_inv (done : list nat) (loc : locals) (st : gmap ascii Text) : Prop := {
  ri_plain : plain loc.1 = guess;
  ri_spans : ∀ i, mkSpan i (i + 1) green_style ∈ spans loc.1 ↔ green_at i;
  ri_green : ∀ i, green_at i → style_at loc.1 i = Some green_style;
  ri_todo : ∀ i, ¬ green_at i → i ∉ done → style_at loc.1 i = None;
  ri_done : ∀ i, ¬ green_at i → i ∈ done →
    (style_at loc.1 i = Some yellow_style ∧ ∃ x, guess !! i = Some x ∧ x ∈ wordle)
    ∨ style_at loc.1 i = Some no_style;
  ri_freq : ∀ x, loc.2 !! x
    = (λ n, n - Z.of_nat (hits x order) - Z.of_nat (yellows x loc.1 done))%Z
        <$> letter_freq wordle !! x;
  ri_nonneg : ∀ x n, loc.2 !! x = Some n → (0 ≤ n)%Z;
  ri_keys : same_keys st status0;
  ri_cells : legend_ok st;
  ri_correct : ∀ x, green_letter order x → letter_status st x = Correct;
  ri_kept : ∀ x, ¬ green_letter order x → letter_status status0 x ≠ Unseen →
    letter_status st x = letter_status status0 x;
  ri_first : ∀ x, ¬ green_letter order x → letter_status status0 x = Unseen →
    match letter_status st x with
    | Unseen => ∀ j, j ∈ done → ¬ green_at j → guess !! j ≠ Some x
    | Absent => (∀ j, j ∈ done → guess !! j = Some x →
                   style_at loc.1 j ≠ Some yellow_style)
                ∧ ¬ budget_open loc.2 x
    | Present => True
    | Correct => False
    end
}.
End Notions.

(** What a styled guess shows, position by position. *)
Record classified (guess wordle : word) (pg : Text) : Prop := {
  cl_plain : plain pg = guess;
  cl_correct : ∀ i, i < WORD_LENGTH →
    status_at pg i = Correct ↔ guess !! i = wordle !! i;
  cl_present : ∀ i, status_at pg i = Present → ∃ x, guess !! i = Some x ∧ x ∈ wordle;
  cl_seen : ∀ i, i < WORD_LENGTH → status_at pg i ≠ Unseen;
  cl_outside : ∀ i, WORD_LENGTH ≤ i → status_at pg i = Unseen;
  cl_budget : ∀ x,
    length (positions_of guess pg x Correct) + length (positions_of guess pg x Present)
    ≤ count x wordle
}.

(** What a call returns, and what it does to the legend. *)
Record evaluation (guess wordle : word) (st : gmap ascii Text)
    (pg : Text) (st' : gmap ascii Text) : Prop := {
  ev_classified : classified guess wordle pg;
  ev_legend_correct : ∀ i x,
    guess !! i = Some x → status_at pg i = Correct → letter_status st' x = Correct;
  ev_legend_first : ∀ i x,
    guess !! i = Some x → letter_status st x = Unseen →
    rank (status_at pg i) ≤ rank (letter_status st' x);
  ev_legend_absent : ∀ x,
    letter_status st' x = Absent → letter_status st x = Absent ∨ x ∉ wordle;
  ev_legend_kept : ∀ x,
    letter_status st x ≠ Unseen →
    (∀ i, guess !! i = Some x → status_at pg i ≠ Correct) →
    letter_status st' x = letter_status st x
}.

(** * Properties *)

(** ** Computations *)

Lemma bind_Ok {S A B} (m : M S A) (k : A → M S B) st b st' :
  bind m k st = Ok (b, st') ↔ ∃ a st1, m st = Ok (a, st1) ∧ k a st1 = Ok (b, st').
Proof.
  unfold bind. split.
  - destruct (m st) as [[a st1]|e]; [eauto | discriminate].
  - intros (a & st1 & -> & Hk). exact Hk.
Qed.

(** Total correctness of a loop: an invariant on the positions done so far
    that every iteration re-establishes, without raising. *)
Lemma for_each_total {S A} (I : list nat → A → S → Prop) (body : nat → A → M S A) :
  ∀ todo done a st,
    I done a st →
    (∀ before i after a st,
        done ++ todo = before ++ i :: after → I before a st →
        ∃ a' st', body i a st = Ok (a', st') ∧ I (before ++ [i]) a' st') →
    ∃ a' st', for_each todo body a st = Ok (a', st') ∧ I (done ++ todo) a' st'.
Proof.
  induction todo as [|i todo IH]; intros done a st HI Hstep; simpl.
  - rewrite app_nil_r. unfold ret. eauto.
  - destruct (Hstep done i todo a st eq_refl HI) as (a1 & st1 & Hb & HI1).
    unfold bind. rewrite Hb.
    destruct (IH (done ++ [i]) a1 st1 HI1) as (a2 & st2 & Hf & HI2).
    + intros before j after a' st' Heq. apply (Hstep before j after).
      rewrite <- Heq. by rewrite <- app_assoc.
    + rewrite <- app_assoc in HI2. eauto.
Qed.

(** Partial correctness: whatever the loop returns satisfies an invariant
    its iterations preserve. *)
Lemma for_each_partial {S A} (I : A → S → Prop) (body : nat → A → M S A) :
  (∀ i a st a' st', I a st → body i a st = Ok (a', st') → I a' st') →
  ∀ todo a st a' st', I a st → for_each todo body a st = Ok (a', st') → I a' st'.
Proof.
  intros Hstep. induction todo as [|i todo IH]; intros a st a' st' HI; simpl.
  - unfold ret. intros [= <- <-]. exact HI.
  - rewrite bind_Ok. intros (a1 & st1 & Hb & Hf). eauto.
Qed.

(** Two runs of a loop from related states stay related and return the
    same value. *)
Lemma for_each_same_outcome {S A} (R : S → S → Prop) (body : nat → A → M S A) :
  (∀ i a s1 s2, R s1 s2 → same_outcome R (body i a s1) (body i a s2)) →
  ∀ todo a s1 s2, R s1 s2 →
    same_outcome R (for_each todo body a s1) (for_each todo body a s2).
Proof.
  intros Hstep. induction todo as [|i todo IH]; intros a s1 s2 HR; simpl.
  - done.
  - specialize (Hstep i a s1 s2 HR). unfold bind, same_outcome in *.
    destruct (body i a s1) as [[a1 t1]|e1], (body i a s2) as [[a2 t2]|e2];
      try done.
    destruct Hstep as [<- HR']. by apply IH.
Qed.

(** ** Lists and counting *)

Lemma filter_ext_elem {A} (P Q : A → Prop) `{∀ x, Decision (P x)} `{∀ x, Decision (Q x)}
    (l : list A) :
  (∀ x, x ∈ l → P x ↔ Q x) → filter P l = filter Q l.
Proof.
  induction l as [|a l IH]; intros Hext; [done|].
  rewrite !filter_cons.
  rewrite IH by (intros x Hx; apply Hext; by right).
  destruct (decide (P a)) as [HP|HP], (decide (Q a)) as [HQ|HQ]; try done.
  - destruct HQ. apply Hext; [left | done].
  - destruct HP. apply Hext; [left | done].
Qed.

Lemma filter_snoc {A} (P : A → Prop) `{∀ x, Decision (P x)} (l : list A) (a : A) :
  length (filter P (l ++ [a])) = length (filter P l) + (if decide (P a) then 1 else 0).
Proof.
  rewrite filter_app, length_app, filter_cons, filter_nil.
  by destruct (decide (P a)).
Qed.

Lemma count_positions (x : ascii) (s : word) :
  length (filter (λ j, s !! j = Some x) (seq 0 (length s))) = count x s.
Proof.
  unfold count. induction s as [|a s IH] using rev_ind; [done|].
  rewrite length_app. simpl. rewrite Nat.add_1_r, seq_S. simpl.
  rewrite !filter_snoc, <- IH. f_equal.
  - f_equal. apply filter_ext_elem. intros j Hj. apply elem_of_seq in Hj.
    by rewrite lookup_app_l by lia.
  - rewrite lookup_app_r by lia. rewrite Nat.sub_diag. simpl.
    destruct (decide (Some a = Some x)), (decide (x = a)); congruence.
Qed.

Lemma count_pos_elem (x : ascii) (s : word) : 0 < count x s ↔ x ∈ s.
Proof.
  unfold count. split.
  - intros Hc. destruct (filter (x =.) s) as [|y l] eqn:E; [simpl in Hc; lia|].
    assert (y ∈ filter (x =.) s) as Hy by (rewrite E; left).
    apply list_elem_of_filter in Hy as [-> Hy]. done.
  - intros Hx. assert (x ∈ filter (x =.) s) as Hy by (by apply list_elem_of_filter).
    destruct (filter (x =.) s); [by apply elem_of_nil in Hy | simpl; lia].
Qed.

(** Distinct positions holding [x] are at most as many as [x]'s occurrences. *)
Lemma positions_le_count (x : ascii) (s : word) (P : nat → Prop)
    `{∀ j, Decision (P j)} (l : list nat) :
  NoDup l → (∀ j, P j → s !! j = Some x) → length (filter P l) ≤ count x s.
Proof.
  intros Hnd HP. rewrite <- count_positions.
  apply submseteq_length, NoDup_submseteq; [by apply NoDup_filter|].
  intros j Hj. apply list_elem_of_filter in Hj as [Hj _].
  apply list_elem_of_filter. split; [by apply HP|].
  apply elem_of_seq. split; [lia|]. simpl.
  apply lookup_lt_Some with x. by apply HP.
Qed.

(** ** [letter_freq] counts occurrences *)

Lemma letter_freq_fold (x : ascii) (s : word) (acc : gmap ascii Z) :
  foldl (λ freqs letter,
           match freqs !! letter with
           | Some n => <[letter := (n + 1)%Z]> freqs
           | None => <[letter := 1%Z]> freqs
           end) acc s !! x
  = match acc !! x with
    | Some n => Some (n + Z.of_nat (count x s))%Z
    | None => if decide (x ∈ s) then Some (Z.of_nat (count x s)) else None
    end.
Proof.
  revert acc. induction s as [|a s IH]; intros acc; cbn [foldl].
  - destruct (acc !! x); [f_equal; unfold count; simpl; lia|].
    by rewrite decide_False by apply not_elem_of_nil.
  - rewrite IH. unfold count. rewrite filter_cons.
    destruct (decide (x = a)) as [<-|Hne].
    + rewrite (decide_True (P := x ∈ x :: s)) by left.
      destruct (acc !! x) as [n|] eqn:E; rewrite lookup_insert_eq;
        f_equal; simpl length; lia.
    + assert (∀ v, <[a := v]> acc !! x = acc !! x) as Hl
        by (intros v; by apply lookup_insert_ne).
      assert (x ∈ a :: s ↔ x ∈ s) as Hin by (rewrite elem_of_cons; tauto).
      destruct (acc !! a); rewrite Hl; destruct (acc !! x); try done;
        by rewrite (decide_ext _ _ _ _ Hin).
Qed.

Lemma letter_freq_lookup (x : ascii) (s : word) :
  letter_freq s !! x = if decide (x ∈ s) then Some (Z.of_nat (count x s)) else None.
Proof. unfold letter_freq. by rewrite letter_freq_fold, lookup_empty. Qed.

(** ** Styling a text *)

Lemma stylize_span_cell sty i (t : Text) :
  i < length (plain t) →
  stylize_span sty i (Some (i + 1)) t = Some (mkSpan i (i + 1) sty).
Proof.
  intros Hi. unfold stylize_span. simpl.
  rewrite (proj2 (Nat.leb_gt _ _)) by lia.
  rewrite (proj2 (Nat.leb_gt _ _)) by lia. simpl.
  by rewrite Nat.min_r by lia.
Qed.

Lemma plain_stylize sty i e t : plain (stylize sty i e t) = plain t.
Proof. unfold stylize. by destruct (stylize_span sty i e t). Qed.

Lemma plain_stylize_before sty i e t : plain (stylize_before sty i e t) = plain t.
Proof. unfold stylize_before. by destruct (stylize_span sty i e t). Qed.

Lemma spans_stylize_cell sty i t :
  i < length (plain t) →
  spans (stylize sty i (Some (i + 1)) t) = spans t ++ [mkSpan i (i + 1) sty].
Proof. intros Hi. unfold stylize. by rewrite stylize_span_cell. Qed.

Lemma style_at_stylize_cell sty i t j :
  i < length (plain t) →
  style_at (stylize sty i (Some (i + 1)) t) j
  = if decide (j = i) then Some sty else style_at t j.
Proof.
  intros Hi. unfold style_at. rewrite spans_stylize_cell by done.
  rewrite filter_app, filter_cons, filter_nil.
  destruct (decide (covers j (mkSpan i (i + 1) sty))) as [Hc|Hc];
    unfold covers in Hc; simpl in Hc.
  - rewrite decide_True by lia. by rewrite last_snoc.
  - rewrite decide_False by lia. by rewrite app_nil_r.
Qed.

(** The legend cell of a letter: a style over the whole cell reaches the
    letter when the cell has at least two characters. *)
Lemma stylize_span_whole sty (t : Text) :
  stylize_span sty 0 None t
  = if decide (0 < length (plain t)) then Some (mkSpan 0 (length (plain t)) sty)
    else None.
Proof.
  unfold stylize_span. simpl. destruct (plain t) as [|c p]; simpl; [done|].
  by rewrite Nat.min_id.
Qed.

Lemma status_at_stylize_whole sty t :
  status_at (stylize sty 0 None t) 1
  = if decide (2 ≤ length (plain t)) then status_of_style sty else status_at t 1.
Proof.
  unfold status_at, style_at, stylize. rewrite stylize_span_whole.
  destruct (decide (0 < length (plain t))) as [H0|H0]; simpl.
  - rewrite filter_app, filter_cons, filter_nil.
    destruct (decide (covers 1 (mkSpan 0 (length (plain t)) sty))) as [Hc|Hc];
      unfold covers in Hc; simpl in Hc.
    + rewrite decide_True by lia. by rewrite last_snoc.
    + rewrite decide_False by lia. by rewrite app_nil_r.
  - by rewrite decide_False by lia.
Qed.

Lemma status_of_style_seen sty : status_of_style sty ≠ Unseen.
Proof. by destruct sty. Qed.

Lemma status_at_stylize_before_whole sty t :
  status_at (stylize_before sty 0 None t) 1
  = if decide (2 ≤ length (plain t) ∧ status_at t 1 = Unseen)
    then status_of_style sty else status_at t 1.
Proof.
  unfold status_at, style_at, stylize_before. rewrite stylize_span_whole.
  destruct (decide (0 < length (plain t))) as [H0|H0]; simpl.
  - rewrite filter_cons.
    destruct (decide (covers 1 (mkSpan 0 (length (plain t)) sty))) as [Hc|Hc];
      unfold covers in Hc; simpl in Hc.
    + destruct (filter (covers 1) (spans t)) as [|sp l] eqn:E using rev_ind.
      * simpl. by rewrite decide_True by (split; [lia | done]).
      * rewrite app_comm_cons, !last_snoc. simpl.
        rewrite decide_False; [done|]. intros [_ Hu].
        by apply status_of_style_seen in Hu.
    + rewrite decide_False; [done | lia].
  - rewrite decide_False; [done | lia].
Qed.

Lemma letter_status_insert (status : gmap ascii Text) x t y :
  letter_status (<[x := t]> status) y
  = if decide (y = x) then status_at t 1 else letter_status status y.
Proof.
  unfold letter_status. destruct (decide (y = x)) as [->|Hne].
  - by rewrite lookup_insert_eq.
  - by rewrite lookup_insert_ne.
Qed.

(** ** What one call does to the legend *)

Lemma green_body_legend guess wordle i loc st loc' st' :
  green_body guess wordle i loc st = Ok (loc', st') → legend_step guess i st st'.
Proof.
  unfold green_body, legend_step. destruct loc as [pg wf]. unfold_monad.
  intros Hrun.
  repeat (case_match; simplify_eq); eauto 10.
Qed.

Lemma rest_body_legend guess wordle i loc st loc' st' :
  rest_body guess wordle i loc st = Ok (loc', st') → legend_step guess i st st'.
Proof.
  unfold rest_body, legend_step. destruct loc as [pg wf]. unfold_monad.
  intros Hrun.
  repeat (case_match; simplify_eq); eauto 10.
Qed.

Lemma legend_evolves_refl guess st : legend_evolves guess st st.
Proof.
  split; try done.
  intros x t Hx. exists t, [], []. by rewrite app_nil_r.
Qed.

Lemma rank_le_Correct c : rank c ≤ rank Correct.
Proof. destruct c; simpl; lia. Qed.

Lemma legend_step_evolves guess i st st1 st2 :
  legend_evolves guess st st1 → legend_step guess i st1 st2 →
  legend_evolves guess st st2.
Proof.
  intros [Hdom Hframe Hcell Hrank] [->|(x & t & f & Hi & Hx & -> & Hf)]; [done|].
  assert (plain (f t) = plain t ∧ ∃ before after, spans (f t) = before ++ spans t ++ after)
    as [Hplain (before & after & Hspans)].
  { destruct Hf as [->|[->| ->]]; unfold stylize, stylize_before;
      destruct (stylize_span _ _ _ _); simpl; split; try done;
      try (by exists [], []; rewrite app_nil_r);
      try (by eexists [], [_]); by eexists [_], []; rewrite app_nil_r. }
  split.
  - rewrite dom_insert_L, Hdom. apply elem_of_dom_2 in Hx.
    assert (x ∈ dom st) as Hin by (by rewrite <- Hdom).
    apply set_eq. intros y. rewrite elem_of_union, elem_of_singleton.
    split; [intros [->|]; done | by right].
  - intros y Hy. rewrite lookup_insert_ne; [by apply Hframe|].
    intros <-. apply Hy. by eapply list_elem_of_lookup_2.
  - intros y t'. destruct (decide (x = y)) as [<-|Hne].
    + rewrite lookup_insert_eq. intros [= <-].
      destruct (Hcell x t Hx) as (t0 & b0 & a0 & H0 & Hp0 & Hs0).
      exists t0, (before ++ b0), (a0 ++ after). split; [done|]. split; [congruence|].
      rewrite Hspans, Hs0. by rewrite <- !app_assoc.
    + rewrite lookup_insert_ne by done. apply Hcell.
  - intros y. etrans; [apply Hrank|]. rewrite letter_status_insert.
    destruct (decide (y = x)) as [->|]; [|done].
    unfold letter_status at 1. rewrite Hx.
    destruct Hf as [->|[->| ->]].
    + rewrite status_at_stylize_whole. case_decide; [apply rank_le_Correct | done].
    + rewrite status_at_stylize_before_whole.
      case_decide as Hc; [|done]. destruct Hc as [_ ->]. simpl. lia.
    + rewrite status_at_stylize_before_whole.
      case_decide as Hc; [|done]. destruct Hc as [_ ->]. simpl. lia.
Qed.

Lemma color_guess_in_legend order guess wordle st pg st' :
  color_guess_in order guess wordle st = Ok (pg, st') → legend_evolves guess st st'.
Proof.
  unfold color_guess_in. rewrite bind_Ok. intros (loc1 & st1 & H1 & H2).
  apply bind_Ok in H2 as (loc2 & st2 & H2 & H3). injection H3 as _ ->.
  assert (legend_evolves guess st st1) as E1.
  { revert H1. apply (for_each_partial (λ _ s, legend_evolves guess st s));
      [|apply legend_evolves_refl].
    intros i a s a' s' Hs Hb. eapply legend_step_evolves; [done|].
    by eapply green_body_legend. }
  revert H2. apply (for_each_partial (λ _ s, legend_evolves guess st s)); [|done].
  intros i a s a' s' Hs Hb. eapply legend_step_evolves; [done|].
  by eapply rest_body_legend.
Qed.

(** ** The result of a call does not depend on the legend *)

Lemma same_keys_lookup s1 s2 x :
  same_keys s1 s2 → s1 !! x = None ↔ s2 !! x = None.
Proof. unfold same_keys. intros H. by rewrite <- !not_elem_of_dom, H. Qed.

Lemma update_status_same_keys x f s1 s2 :
  same_keys s1 s2 →
  same_outcome same_keys (update_status x f s1) (update_status x f s2).
Proof.
  intros Hk. unfold update_status. pose proof (same_keys_lookup s1 s2 x Hk) as Hx.
  destruct (s1 !! x) as [t1|] eqn:E1, (s2 !! x) as [t2|] eqn:E2; simpl;
    try done; try (by destruct Hx as [Hx1 Hx2]; (discriminate Hx1 || discriminate Hx2)).
  split; [done|]. unfold same_keys in *. rewrite !dom_insert_L. by rewrite Hk.
Qed.

Lemma green_body_same_keys guess wordle i loc s1 s2 :
  same_keys s1 s2 →
  same_outcome same_keys (green_body guess wordle i loc s1) (green_body guess wordle i loc s2).
Proof.
  intros Hk. unfold green_body. destruct loc as [pg wf].
  cbv [bind ret raise getitem getkey budget_left decrement].
  destruct (guess !! i) as [x|]; [|done].
  destruct (wordle !! i) as [w|]; [|done].
  case_bool_decide; [|done].
  destruct (wf !! x) as [n|]; [|done].
  case_bool_decide; [|done].
  pose proof (update_status_same_keys x (stylize green_style 0 None) s1 s2 Hk) as Hu.
  destruct (update_status _ _ s1) as [[[] t1]|e1], (update_status _ _ s2) as [[[] t2]|e2];
    simpl in *; try done. by destruct Hu.
Qed.

Lemma rest_body_same_keys guess wordle i loc s1 s2 :
  same_keys s1 s2 →
  same_outcome same_keys (rest_body guess wordle i loc s1) (rest_body guess wordle i loc s2).
Proof.
  intros Hk. unfold rest_body. destruct loc as [pg wf].
  cbv [bind ret raise getitem getkey budget_left decrement].
  case_bool_decide; [done|].
  destruct (guess !! i) as [x|]; [|done].
  assert (∀ sty (l : locals),
    same_outcome same_keys
      (match update_status x (stylize_before sty 0 None) s1 with
       | Ok (_, st') => Ok (l, st') | Raise e => Raise e end)
      (match update_status x (stylize_before sty 0 None) s2 with
       | Ok (_, st') => Ok (l, st') | Raise e => Raise e end)) as Hsty.
  { intros sty l.
    pose proof (update_status_same_keys x (stylize_before sty 0 None) s1 s2 Hk) as Hu.
    destruct (update_status _ _ s1) as [[[] t1]|e1], (update_status _ _ s2) as [[[] t2]|e2];
      simpl in *; try done. by destruct Hu. }
  case_bool_decide.
  - destruct (wf !! x) as [n|]; [|done].
    case_bool_decide; [|apply Hsty].
    pose proof (update_status_same_keys x (stylize_before yellow_style 0 None) s1 s2 Hk) as Hu.
    destruct (update_status _ _ s1) as [[[] t1]|e1], (update_status _ _ s2) as [[[] t2]|e2];
      simpl in *; try done. by destruct Hu.
  - apply Hsty.
Qed.

Lemma color_guess_in_same_keys order guess wordle s1 s2 :
  same_keys s1 s2 →
  same_outcome same_keys (color_guess_in order guess wordle s1)
    (color_guess_in order guess wordle s2).
Proof.
  intros Hk. unfold color_guess_in.
  pose proof (for_each_same_outcome same_keys (green_body guess wordle)
    (λ i a t1 t2, green_body_same_keys guess wordle i a t1 t2) order
    (new_Text guess, letter_freq wordle) s1 s2 Hk) as H1.
  unfold bind at 1 3.
  destruct (for_each order _ _ s1) as [[a1 t1]|e1], (for_each order _ _ s2) as [[a2 t2]|e2];
    simpl in H1; try done.
  destruct H1 as [<- Hk1].
  pose proof (for_each_same_outcome same_keys (rest_body guess wordle)
    (λ i a t1 t2, rest_body_same_keys guess wordle i a t1 t2) (range WORD_LENGTH)
    a1 t1 t2 Hk1) as H2.
  unfold bind.
  destruct (for_each _ _ _ t1) as [[b1 u1]|e1], (for_each _ _ _ t2) as [[b2 u2]|e2];
    simpl in H2; try done.
  destruct H2 as [<- Hk2]. done.
Qed.

(** ** The two loops of [color_guess] *)

Lemma legend_ok_insert status x t f :
  legend_ok status → status !! x = Some t → plain (f t) = plain t →
  legend_ok (<[x := f t]> status).
Proof.
  intros Hok Hx Hp. apply map_Forall_insert_2; [|done].
  rewrite Hp. by apply (Hok x t).
Qed.

Lemma same_keys_insert (status status0 : gmap ascii Text) x t t' :
  same_keys status status0 → status !! x = Some t →
  same_keys (<[x := t']> status) status0.
Proof.
  unfold same_keys. intros <- Hx. rewrite dom_insert_L.
  apply elem_of_dom_2 in Hx. apply set_eq. intros y.
  rewrite elem_of_union, elem_of_singleton. split; [intros [->|]; done | by right].
Qed.

Section Passes.
Variables (guess wordle : word) (order : list nat) (status0 : gmap ascii Text).

Lemma hit_exact x j : hit guess wordle x j → exact guess wordle j.
Proof. intros [Hg Hw]. split; [by rewrite Hg | congruence]. Qed.

Lemma exact_hit j : exact guess wordle j → ∃ x, hit guess wordle x j.
Proof. intros [[x Hx] He]. exists x. split; congruence. Qed.

Lemma hits_snoc x l i :
  hits guess wordle x (l ++ [i])
  = hits guess wordle x l + (if decide (hit guess wordle x i) then 1 else 0).
Proof. apply filter_snoc. Qed.

Lemma green_letter_snoc l i x :
  green_letter guess wordle (l ++ [i]) x
  ↔ green_letter guess wordle l x ∨ hit guess wordle x i.
Proof.
  unfold green_letter. rewrite Exists_app, Exists_cons, Exists_nil. tauto.
Qed.

Lemma hits_pos l x : 0 < hits guess wordle x l ↔ green_letter guess wordle l x.
Proof.
  unfold hits, green_letter. rewrite Exists_exists. split.
  - intros Hl. destruct (filter (hit guess wordle x) l) as [|j l'] eqn:E; [simpl in Hl; lia|].
    assert (j ∈ filter (hit guess wordle x) l) as Hj by (rewrite E; left).
    apply list_elem_of_filter in Hj as [? ?]. eauto.
  - intros (j & Hj & Hh).
    assert (j ∈ filter (hit guess wordle x) l) as Hf by (by apply list_elem_of_filter).
    destruct (filter (hit guess wordle x) l); [by apply elem_of_nil in Hf | simpl; lia].
Qed.

Lemma hits_le_count x l : NoDup l → hits guess wordle x l ≤ count x wordle.
Proof. intros Hl. apply positions_le_count; [done|]. by intros j [_ ?]. Qed.

Lemma yellows_snoc x pg l i :
  yellows guess x pg (l ++ [i])
  = yellows guess x pg l + (if decide (yellow guess x pg i) then 1 else 0).
Proof. apply filter_snoc. Qed.

Lemma yellows_stylize x sty pg l i :
  i < length (plain pg) → i ∉ l →
  yellows guess x (stylize sty i (Some (i + 1)) pg) l = yellows guess x pg l.
Proof.
  intros Hi Hl. unfold yellows. f_equal. apply filter_ext_elem.
  intros j Hj. unfold yellow. rewrite style_at_stylize_cell by done.
  rewrite decide_False; [done|]. by intros ->.
Qed.

Hypothesis order_NoDup : NoDup order.
Hypothesis order_guess : ∀ i, i ∈ order → i < length guess.
Hypothesis order_wordle : ∀ i, i ∈ order → i < length wordle.
Hypothesis guess_long : WORD_LENGTH ≤ length guess.
Hypothesis guess_keys : ∀ x, x ∈ guess → is_Some (status0 !! x).
Hypothesis cells_ok : legend_ok status0.

(** *** The first loop *)

Lemma green_inv_start :
  green_inv guess wordle status0 [] (new_Text guess, letter_freq wordle) status0.
Proof.
  split; cbn [fst snd new_Text plain spans]; try done.
  - intros i. split; [intros H | intros [H _]]; by apply elem_of_nil in H.
  - intros x. unfold hits. simpl. destruct (letter_freq wordle !! x); simpl; [|done].
    f_equal. lia.
  - intros x Hx. by apply Exists_nil in Hx.
Qed.

Lemma green_body_inv before i after loc st :
  order = before ++ i :: after → green_inv guess wordle status0 before loc st →
  ∃ loc' st', green_body guess wordle i loc st = Ok (loc', st')
              ∧ green_inv guess wordle status0 (before ++ [i]) loc' st'.
Proof.
  intros Ho [Hplain Hspans Hstyle Hfreq Hkeys Hcells Hgreen Hother].
  destruct loc as [pg wf]. simpl in *.
  assert (i ∈ order) as Hi by (rewrite Ho, elem_of_app; right; left).
  assert (NoDup (before ++ [i]) ∧ i ∉ before) as [Hnd Hfresh].
  { rewrite Ho in order_NoDup. apply NoDup_app in order_NoDup as (Hb & Hd & Ha).
    split; [|intros Hin; apply (Hd i Hin); left].
    apply NoDup_app. split; [done|]. split; [|apply NoDup_singleton].
    intros j Hj Hj'. apply list_elem_of_singleton in Hj' as ->.
    apply (Hd i Hj). left. }
  destruct (lookup_lt_is_Some_2 guess i (order_guess i Hi)) as [x Hx].
  destruct (lookup_lt_is_Some_2 wordle i (order_wordle i Hi)) as [w Hw].
  unfold green_body. cbv [bind ret raise getitem getkey budget_left decrement].
  rewrite Hx, Hw. case_bool_decide as Hxw.
  - subst w. assert (hit guess wordle x i) as Hhit by done.
    assert (x ∈ wordle) as Hin by (by eapply list_elem_of_lookup_2).
    pose proof (hits_le_count x _ Hnd) as Hle.
    rewrite hits_snoc, decide_True in Hle by done.
    rewrite Hfreq, letter_freq_lookup, decide_True by done. simpl.
    rewrite bool_decide_true by lia.
    destruct (guess_keys x) as [t0 Ht0]; [by eapply list_elem_of_lookup_2|].
    assert (is_Some (st !! x)) as [t Ht].
    { apply elem_of_dom. rewrite Hkeys. apply elem_of_dom. eauto. }
    unfold update_status. rewrite Ht. eexists _, _. split; [done|].
    assert (i < length (plain pg)) as Hlen by (rewrite Hplain; auto).
    split; simpl.
    + by rewrite plain_stylize.
    + intros j.
      rewrite spans_stylize_cell, elem_of_app, list_elem_of_singleton, Hspans by done.
      rewrite elem_of_app, list_elem_of_singleton. split.
      * intros [[? ?]|[= -> _]]; [tauto|].
        split; [by right | by eapply hit_exact].
      * intros [[?| ->] ?]; [tauto | by right].
    + intros j. rewrite style_at_stylize_cell, Hstyle by done.
      destruct (decide (j = i)) as [->|Hne].
      * rewrite decide_True; [done|].
        split; [apply elem_of_app; right; left | by eapply hit_exact].
      * apply decide_ext. rewrite elem_of_app, list_elem_of_singleton. tauto.
    + intros y. destruct (decide (y = x)) as [->|Hne].
      * rewrite lookup_insert_eq, letter_freq_lookup, decide_True by done. simpl.
        rewrite hits_snoc, decide_True by done. f_equal. lia.
      * rewrite lookup_insert_ne, Hfreq by done.
        rewrite hits_snoc, decide_False; [by rewrite Nat.add_0_r|].
        intros [? _]. congruence.
    + by eapply same_keys_insert.
    + apply legend_ok_insert; [done..|apply plain_stylize].
    + intros y Hy. rewrite letter_status_insert.
      destruct (decide (y = x)) as [->|Hne].
      * rewrite status_at_stylize_whole, decide_True; [done|]. by apply (Hcells x t).
      * apply Hgreen. apply green_letter_snoc in Hy as [?|[? _]]; [done | congruence].
    + intros y Hy. rewrite green_letter_snoc in Hy.
      rewrite lookup_insert_ne; [apply Hother; tauto|]. intros ->. tauto.
  - assert (¬ exact guess wordle i) as Hne.
    { intros [_ He]. rewrite Hx, Hw in He. congruence. }
    assert (∀ y, ¬ hit guess wordle y i) as Hnh by (intros y Hy; by apply hit_exact in Hy).
    eexists _, _. split; [done|]. split; simpl; try done.
    + intros j. rewrite Hspans, elem_of_app, list_elem_of_singleton.
      split; [tauto|]. intros [[?| ->] ?]; tauto.
    + intros j. rewrite Hstyle. apply decide_ext.
      rewrite elem_of_app, list_elem_of_singleton.
      split; [tauto|]. intros [[?| ->] ?]; tauto.
    + intros y. rewrite Hfreq, hits_snoc, decide_False by apply Hnh.
      by rewrite Nat.add_0_r.
    + intros y Hy. apply Hgreen. apply green_letter_snoc in Hy as [?|?]; [done|].
      by apply Hnh in H.
    + intros y Hy. apply Hother. rewrite green_letter_snoc in Hy. tauto.
Qed.

(** *** The second loop *)

Lemma rest_inv_start loc st :
  green_inv guess wordle status0 order loc st →
  rest_inv guess wordle order status0 [] loc st.
Proof.
  intros [Hplain Hspans Hstyle Hfreq Hkeys Hcells Hgreen Hother].
  split; try done.
  - intros i Hi. rewrite Hstyle. by rewrite decide_True.
  - intros i Hi _. rewrite Hstyle. by rewrite decide_False.
  - intros i _ Hi. by apply elem_of_nil in Hi.
  - intros x. rewrite Hfreq. destruct (letter_freq wordle !! x); simpl; [|done].
    f_equal. unfold yellows. simpl. lia.
  - intros x n. rewrite Hfreq, letter_freq_lookup.
    pose proof (hits_le_count x order order_NoDup).
    case_decide; simpl; [|done]. intros [= <-]. lia.
  - intros x Hx _. unfold letter_status. by rewrite Hother.
  - intros x Hx Hu. unfold letter_status in *. rewrite Hother, Hu by done.
    intros j Hj. by apply elem_of_nil in Hj.
Qed.

(** An iteration that skips a green position. *)
Lemma rest_skip_inv before i loc st :
  green_at guess wordle order i →
  rest_inv guess wordle order status0 before loc st →
  rest_inv guess wordle order status0 (before ++ [i]) loc st.
Proof.
  intros Hi [Hplain Hspans Hgreen Htodo Hdone Hfreq Hnn Hkeys Hcells Hcorr Hkept Hfirst].
  split; try done.
  - intros j Hj Hn. apply Htodo; [done|]. intros ?. apply Hn, elem_of_app. by left.
  - intros j Hj [?| ->%list_elem_of_singleton]%elem_of_app; [by apply Hdone | done].
  - intros x. rewrite Hfreq, yellows_snoc, decide_False; [by rewrite Nat.add_0_r|].
    intros [_ Hy]. rewrite Hgreen in Hy by done. discriminate.
  - intros x Hx Hu. specialize (Hfirst x Hx Hu).
    destruct (letter_status st x); try done.
    + intros j [?| ->%list_elem_of_singleton]%elem_of_app; [by apply Hfirst | done].
    + destruct Hfirst as [Hy Hb]. split; [|done].
      intros j [?| ->%list_elem_of_singleton]%elem_of_app; [by apply Hy|].
      intros _. rewrite Hgreen by done. discriminate.
Qed.

(** An iteration that colours position [i], holding [x], yellow guess (with
    budget left, which it takes) or gray (without). *)
Lemma rest_colour_inv before i pg wf st x t sty wf' :
  rest_inv guess wordle order status0 before (pg, wf) st →
  i ∉ before → ¬ green_at guess wordle order i →
  guess !! i = Some x → st !! x = Some t →
  (sty = yellow_style ∧ x ∈ wordle ∧
     ∃ n, wf !! x = Some n ∧ (0 < n)%Z ∧ wf' = <[x := (n - 1)%Z]> wf)
  ∨ (sty = no_style ∧ ¬ budget_open wordle wf x ∧ wf' = wf) →
  rest_inv guess wordle order status0 (before ++ [i])
    (stylize sty i (Some (i + 1)) pg, wf')
    (<[x := stylize_before sty 0 None t]> st).
Proof.
  intros [Hplain Hspans Hgreen Htodo Hdone Hfreq Hnn Hkeys Hcells Hcorr Hkept Hfirst].
  simpl in *. intros Hfresh Hng Hx Ht Hcase.
  assert (i < length (plain pg)) as Hlen
    by (rewrite Hplain; by eapply lookup_lt_Some).
  assert (sty ≠ green_style) as Hsty by (destruct Hcase as [[-> _]|[-> _]]; done).
  assert (∀ y, letter_status (<[x := stylize_before sty 0 None t]> st) y
               = if decide (y = x)
                 then (if decide (letter_status st x = Unseen)
                       then status_of_style sty else letter_status st x)
                 else letter_status st y) as Hls.
  { intros y. rewrite letter_status_insert. destruct (decide (y = x)); [|done].
    rewrite status_at_stylize_before_whole. unfold letter_status. rewrite Ht.
    apply decide_ext. pose proof (Hcells x t Ht). simpl in *. tauto. }
  assert (∀ y, yellows guess y (stylize sty i (Some (i + 1)) pg) (before ++ [i])
               = yellows guess y pg before
                 + (if decide (y = x ∧ sty = yellow_style) then 1 else 0)) as Hyel.
  { intros y. rewrite yellows_snoc, yellows_stylize by done. f_equal.
    apply decide_ext. unfold yellow. rewrite style_at_stylize_cell, decide_True by done.
    rewrite Hx. split; [intros [[= ->] [= ->]]; done | intros [-> ->]; done]. }
  split; cbn [fst snd].
  - by rewrite plain_stylize.
  - intros j. rewrite spans_stylize_cell, elem_of_app, list_elem_of_singleton, Hspans by done.
    split; [intros [?|[= _ _ ?]]; [done | congruence] | by left].
  - intros j Hj. rewrite style_at_stylize_cell by done.
    rewrite decide_False; [by apply Hgreen | by intros ->].
  - intros j Hj Hn. rewrite style_at_stylize_cell by done.
    rewrite decide_False; [apply Htodo; [done|] |].
    + intros ?. apply Hn, elem_of_app. by left.
    + intros ->. apply Hn, elem_of_app. right. left.
  - intros j Hj Hin. rewrite style_at_stylize_cell by done.
    destruct (decide (j = i)) as [->|Hne].
    + destruct Hcase as [(-> & Hw & _)|(-> & _)]; [left | by right].
      split; [done|]. eauto.
    + apply Hdone; [done|].
      apply elem_of_app in Hin as [?| ->%list_elem_of_singleton]; done.
  - intros y. rewrite Hyel.
    destruct Hcase as [(-> & Hw & n & Hn & Hpos & ->)|(-> & Hb & ->)].
    + destruct (decide (y = x)) as [->|Hne].
      * rewrite lookup_insert_eq, decide_True by done.
        rewrite Hfreq in Hn. destruct (letter_freq wordle !! x); simpl in *; [|done].
        f_equal. injection Hn as <-. lia.
      * rewrite lookup_insert_ne, Hfreq, decide_False by (try done; tauto).
        by rewrite Nat.add_0_r.
    + rewrite Hfreq, decide_False by (intros [_ ?]; done). by rewrite Nat.add_0_r.
  - intros y m. destruct Hcase as [(-> & Hw & n & Hn & Hpos & ->)|(-> & Hb & ->)].
    + destruct (decide (y = x)) as [->|Hne].
      * rewrite lookup_insert_eq. intros [= <-]. lia.
      * rewrite lookup_insert_ne by done. apply Hnn.
    + apply Hnn.
  - by eapply same_keys_insert.
  - apply legend_ok_insert; [done..|apply plain_stylize_before].
  - intros y Hy. rewrite Hls. destruct (decide (y = x)) as [->|]; [|by apply Hcorr].
    rewrite (Hcorr x Hy). by rewrite decide_False.
  - intros y Hy Hu. rewrite Hls. destruct (decide (y = x)) as [->|]; [|by apply Hkept].
    rewrite (Hkept x Hy Hu). by rewrite decide_False.
  - intros y Hy Hu. rewrite Hls. specialize (Hfirst y Hy Hu).
    destruct (decide (y = x)) as [->|Hne].
    + destruct (letter_status st x) eqn:Es; simpl.
      * destruct Hcase as [(-> & _)|(-> & Hb & ->)]; simpl; [done|].
        split; [|done]. intros j Hj Hgj. rewrite style_at_stylize_cell by done.
        destruct (decide (j = i)) as [->|Hji]; [done|].
        apply elem_of_app in Hj as [Hj| ->%list_elem_of_singleton]; [|done].
        destruct (decide (green_at guess wordle order j)) as [Hgr|Hgr].
        -- rewrite Hgreen by done. discriminate.
        -- by destruct (Hfirst j Hj Hgr).
      * destruct Hfirst as [Hy' Hb'].
        destruct Hcase as [(-> & Hw & n & Hn & Hpos & ->)|(-> & Hb & ->)].
        -- destruct Hb'. split; [done|]. eauto.
        -- split; [|done]. intros j Hj Hgj. rewrite style_at_stylize_cell by done.
           destruct (decide (j = i)) as [->|Hji]; [done|].
           apply elem_of_app in Hj as [Hj| ->%list_elem_of_singleton]; [|done].
           by apply Hy'.
      * done.
      * done.
    + destruct (letter_status st y) eqn:Es; try done.
      * intros j [Hj| ->%list_elem_of_singleton]%elem_of_app Hgj;
          [by apply Hfirst | congruence].
      * destruct Hfirst as [Hy' Hb']. split.
        -- intros j Hj Hgj. rewrite style_at_stylize_cell by done.
           destruct (decide (j = i)) as [->|Hji]; [congruence|].
           apply elem_of_app in Hj as [Hj| ->%list_elem_of_singleton]; [|done].
           by apply Hy'.
        -- intros [Hw (m & Hm & Hpos)]. apply Hb'. split; [done|].
           destruct Hcase as [(-> & _ & n & Hn & _ & ->)|(-> & _ & ->)]; [|eauto].
           rewrite lookup_insert_ne in Hm by done. eauto.
Qed.

Lemma rest_body_inv before i after loc st :
  range WORD_LENGTH = before ++ i :: after →
  rest_inv guess wordle order status0 before loc st →
  ∃ loc' st', rest_body guess wordle i loc st = Ok (loc', st')
              ∧ rest_inv guess wordle order status0 (before ++ [i]) loc' st'.
Proof.
  intros Hr Hinv. destruct loc as [pg wf].
  assert (i < WORD_LENGTH ∧ i ∉ before) as [Hi Hfresh].
  { pose proof (NoDup_seq 0 WORD_LENGTH) as Hnd. fold (range WORD_LENGTH) in Hnd.
    assert (i ∈ range WORD_LENGTH) as Hin by (rewrite Hr, elem_of_app; right; left).
    apply elem_of_seq in Hin. split; [lia|].
    rewrite Hr in Hnd. apply NoDup_app in Hnd as (_ & Hd & _).
    intros Hb. apply (Hd i Hb). left. }
  unfold rest_body. case_bool_decide as Hsp.
  { eexists _, _. split; [done|]. apply rest_skip_inv; [|done].
    by apply (ri_spans _ _ _ _ _ _ _ Hinv). }
  assert (¬ green_at guess wordle order i) as Hng
    by (by rewrite <- (ri_spans _ _ _ _ _ _ _ Hinv)).
  destruct (lookup_lt_is_Some_2 guess i) as [x Hx]; [lia|].
  destruct (guess_keys x) as [t0 Ht0]; [by eapply list_elem_of_lookup_2|].
  assert (is_Some (st !! x)) as [t Ht].
  { apply elem_of_dom. rewrite (ri_keys _ _ _ _ _ _ _ Hinv). apply elem_of_dom. eauto. }
  cbv [bind ret raise getitem getkey budget_left decrement update_status].
  rewrite Hx. case_bool_decide as Hw.
  - pose proof (ri_freq _ _ _ _ _ _ _ Hinv x) as Hn. simpl in Hn.
    rewrite letter_freq_lookup, decide_True in Hn by done. simpl in Hn.
    rewrite Hn. case_bool_decide as Hpos; rewrite Ht.
    + eexists _, _. split; [done|].
      eapply rest_colour_inv; try done. left. split; [done|]. split; [done|]. eauto.
    + eexists _, _. split; [done|].
      eapply rest_colour_inv; try done. right. split; [done|]. split; [|done].
      intros [_ (n & Hn' & Hlt)]. simpl in *. rewrite Hn in Hn'. injection Hn' as Hn'. lia.
  - rewrite Ht. eexists _, _. split; [done|].
    eapply rest_colour_inv; try done. right. split; [done|]. split; [|done].
    by intros [? _].
Qed.

(** Both loops run to the end, and the invariant of the second holds on
    everything the call leaves behind. *)
Lemma color_guess_in_inv :
  ∃ pg wf st',
    color_guess_in order guess wordle status0 = Ok (pg, st')
    ∧ rest_inv guess wordle order status0 (range WORD_LENGTH) (pg, wf) st'.
Proof.
  unfold color_guess_in.
  destruct (for_each_total (green_inv guess wordle status0) (green_body guess wordle) order []
              (new_Text guess, letter_freq wordle) status0 green_inv_start)
    as (loc1 & st1 & Hrun1 & Hinv1).
  { intros before i after a st Ho. apply (green_body_inv before i after). by rewrite <- Ho. }
  simpl in Hinv1. apply rest_inv_start in Hinv1.
  destruct (for_each_total (rest_inv guess wordle order status0)
              (rest_body guess wordle) (range WORD_LENGTH) []
              loc1 st1 Hinv1)
    as ([pg wf] & st2 & Hrun2 & Hinv2).
  { intros before i after a st Ho. apply (rest_body_inv before i after). by rewrite <- Ho. }
  simpl in Hinv2. exists pg, wf, st2. split; [|done].
  unfold bind. rewrite Hrun1, Hrun2. done.
Qed.
End Passes.

(** ** What a call of [color_guess] returns and leaves behind *)

Lemma status_at_Correct t i : status_at t i = Correct ↔ style_at t i = Some green_style.
Proof. unfold status_at. destruct (style_at t i) as [[]|]; naive_solver. Qed.

Lemma status_at_Present t i : status_at t i = Present ↔ style_at t i = Some yellow_style.
Proof. unfold status_at. destruct (style_at t i) as [[]|]; naive_solver. Qed.

Lemma status_at_Absent t i : status_at t i = Absent ↔ style_at t i = Some no_style.
Proof. unfold status_at. destruct (style_at t i) as [[]|]; naive_solver. Qed.

Lemma status_at_Unseen t i : status_at t i = Unseen ↔ style_at t i = None.
Proof. unfold status_at. destruct (style_at t i) as [[]|]; naive_solver. Qed.

Lemma filter_nil_length {A} (P : A → Prop) `{∀ x, Decision (P x)} (l : list A) :
  (∀ x, x ∈ l → ¬ P x) → length (filter P l) = 0.
Proof.
  intros Hl. destruct (filter P l) as [|a l'] eqn:E; [done|].
  assert (a ∈ filter P l) as Ha by (rewrite E; left).
  apply list_elem_of_filter in Ha as [? ?]. naive_solver.
Qed.

Section Evaluation.
Variables (guess wordle : word) (order : list nat) (st : gmap ascii Text).

Hypothesis order_perm : order ≡ₚ range WORD_LENGTH.
Hypothesis guess_long : WORD_LENGTH ≤ length guess.
Hypothesis wordle_long : WORD_LENGTH ≤ length wordle.
Hypothesis guess_keys : ∀ x, x ∈ guess → is_Some (st !! x).
Hypothesis cells_ok : legend_ok st.

Lemma order_elem i : i ∈ order ↔ i < WORD_LENGTH.
Proof. rewrite order_perm. unfold range. rewrite elem_of_seq. lia. Qed.

Lemma order_NoDup : NoDup order.
Proof. rewrite order_perm. apply NoDup_seq. Qed.

Lemma green_at_iff i :
  green_at guess wordle order i ↔ i < WORD_LENGTH ∧ guess !! i = wordle !! i.
Proof.
  unfold green_at, exact. rewrite order_elem. split; [tauto|].
  intros [Hi He]. split; [done|]. split; [|done].
  apply lookup_lt_is_Some_2. lia.
Qed.

Lemma rest_inv_evaluation pg wf st' :
  rest_inv guess wordle order st (range WORD_LENGTH) (pg, wf) st' →
  evaluation guess wordle st pg st'.
Proof.
  intros [Hplain Hspans Hgreen Htodo Hdone Hfreq Hnn Hkeys Hcells Hcorr Hkept Hfirst].
  cbn [fst snd] in *.
  assert (∀ i, i ∈ range WORD_LENGTH ↔ i < WORD_LENGTH) as Hrange
    by (intros i; unfold range; rewrite elem_of_seq; lia).
  assert (∀ i, style_at pg i = Some green_style ↔ green_at guess wordle order i)
    as Hgreen_iff.
  { intros i. split; [|apply Hgreen]. intros Hs.
    destruct (decide (green_at guess wordle order i)) as [|Hn]; [done|].
    destruct (decide (i ∈ range WORD_LENGTH)) as [Hi|Hi].
    - destruct (Hdone i Hn Hi) as [[? _]|?]; congruence.
    - rewrite (Htodo i Hn Hi) in Hs. discriminate. }
  assert (∀ i x, guess !! i = Some x → style_at pg i = Some green_style →
                 green_letter guess wordle order x) as Hletter.
  { intros i x Hx Hs. apply Hgreen_iff in Hs. apply Exists_exists. exists i.
    destruct Hs as [Ho [_ He]]. split; [done|]. split; congruence. }
  assert (∀ x, length (positions_of guess pg x Correct) = hits guess wordle x order)
    as Hcount_green.
  { intros x. unfold hits, positions_of. rewrite order_perm.
    replace (length guess) with (WORD_LENGTH + (length guess - WORD_LENGTH)) by lia.
    rewrite seq_app, filter_app, length_app. fold (range WORD_LENGTH).
    rewrite (filter_nil_length _ (seq _ _)), Nat.add_0_r.
    - f_equal. apply filter_ext_elem. intros i Hi%Hrange.
      rewrite status_at_Correct, Hgreen_iff, green_at_iff. unfold hit.
      split; [intros [Hx [_ He]]; split; congruence|intros [Hx Hw]].
      split; [done|]. split; [done | congruence].
    - intros i Hi%elem_of_seq [_ Hs]. apply status_at_Correct, Hgreen_iff in Hs.
      apply green_at_iff in Hs. lia. }
  assert (∀ i, style_at pg i = Some yellow_style →
               i < WORD_LENGTH ∧ ∃ x, guess !! i = Some x ∧ x ∈ wordle) as Hyellow.
  { intros i Hs.
    assert (¬ green_at guess wordle order i) as Hn
      by (intros Hg%Hgreen; congruence).
    destruct (decide (i ∈ range WORD_LENGTH)) as [Hi|Hi].
    - split; [by apply Hrange|]. destruct (Hdone i Hn Hi) as [[_ ?]|?]; [done | congruence].
    - rewrite (Htodo i Hn Hi) in Hs. discriminate. }
  assert (∀ x, length (positions_of guess pg x Present)
               = yellows guess x pg (range WORD_LENGTH)) as Hcount_yellow.
  { intros x. unfold yellows, positions_of.
    replace (length guess) with (WORD_LENGTH + (length guess - WORD_LENGTH)) by lia.
    rewrite seq_app, filter_app, length_app. fold (range WORD_LENGTH).
    rewrite (filter_nil_length _ (seq _ _)), Nat.add_0_r.
    - f_equal. apply filter_ext_elem. intros i _. unfold yellow.
      by rewrite status_at_Present.
    - intros i Hi%elem_of_seq [_ Hs]. apply status_at_Present, Hyellow in Hs. lia. }
  split; [split|..].
  - done.
  - intros i Hi. rewrite status_at_Correct, Hgreen_iff, green_at_iff. tauto.
  - intros i Hs. apply status_at_Present in Hs. by apply Hyellow.
  - intros i Hi Hs. apply status_at_Unseen in Hs.
    destruct (decide (green_at guess wordle order i)) as [Hg|Hn].
    + rewrite (Hgreen i Hg) in Hs. discriminate.
    + destruct (Hdone i Hn) as [[? _]|?]; [by apply Hrange|congruence..].
  - intros i Hi. apply status_at_Unseen, Htodo.
    + rewrite green_at_iff. lia.
    + rewrite Hrange. lia.
  - intros x. rewrite Hcount_green, Hcount_yellow.
    specialize (Hfreq x). rewrite letter_freq_lookup in Hfreq.
    destruct (decide (x ∈ wordle)) as [Hw|Hw]; simpl in Hfreq.
    + apply Hnn in Hfreq. lia.
    + unfold hits, yellows. rewrite !filter_nil_length; [lia|..].
      * intros i _ [Hx Hs]. destruct (Hyellow i Hs) as (_ & y & Hy & Hin). congruence.
      * intros i _ [_ Hx]. apply Hw. by eapply list_elem_of_lookup_2.
  - intros i x Hx Hs. apply Hcorr. apply status_at_Correct in Hs. by eapply Hletter.
  - intros i x Hx Hu.
    destruct (decide (green_letter guess wordle order x)) as [Hg|Hg].
    { rewrite (Hcorr x Hg). apply rank_le_Correct. }
    specialize (Hfirst x Hg Hu).
    assert (i < WORD_LENGTH ∨ status_at pg i = Unseen) as [Hi|Hi].
    { destruct (decide (i < WORD_LENGTH)); [by left | right].
      apply status_at_Unseen, Htodo; [rewrite green_at_iff | rewrite Hrange]; lia. }
    2: { rewrite Hi. simpl. lia. }
    assert (¬ green_at guess wordle order i) as Hn.
    { intros Hgi. apply Hg. eapply Hletter; [done|]. by apply Hgreen. }
    destruct (letter_status st' x) eqn:Es.
    + by destruct (Hfirst i (proj2 (Hrange i) Hi) Hn).
    + destruct Hfirst as [Hy _]. specialize (Hy i (proj2 (Hrange i) Hi) Hx).
      destruct (Hdone i Hn (proj2 (Hrange i) Hi)) as [[? _]|Ha]; [done|].
      apply status_at_Absent in Ha. by rewrite Ha.
    + destruct (Hdone i Hn (proj2 (Hrange i) Hi)) as [[Hp _]|Ha].
      * apply status_at_Present in Hp. by rewrite Hp.
      * apply status_at_Absent in Ha. rewrite Ha. simpl. lia.
    + done.
  - intros x Ha.
    destruct (decide (green_letter guess wordle order x)) as [Hg|Hg].
    { rewrite (Hcorr x Hg) in Ha. discriminate. }
    destruct (decide (letter_status st x = Unseen)) as [Hu|Hu].
    2: { left. by rewrite <- (Hkept x Hg Hu). }
    right. intros Hw. specialize (Hfirst x Hg Hu). rewrite Ha in Hfirst.
    destruct Hfirst as [Hy Hb]. apply Hb. split; [done|].
    specialize (Hfreq x). rewrite letter_freq_lookup, decide_True in Hfreq by done.
    simpl in Hfreq. eexists. split; [done|].
    assert (hits guess wordle x order = 0) as ->.
    { pose proof (hits_pos guess wordle order x) as Hp.
      destruct (hits guess wordle x order); [done|]. destruct Hg. apply Hp. lia. }
    assert (yellows guess x pg (range WORD_LENGTH) = 0) as ->.
    { apply filter_nil_length. intros i Hi [Hx Hs]. by apply (Hy i Hi Hx). }
    apply count_pos_elem in Hw. lia.
  - intros x Hu Hnc. apply Hkept; [|done]. intros Hg.
    apply Exists_exists in Hg as (i & Hi & Hx & Hw).
    apply (Hnc i Hx), status_at_Correct, Hgreen. split; [done|].
    split; [by rewrite Hx | congruence].
Qed.

(** The call returns, and what it returns is an evaluation. *)
Lemma color_guess_in_evaluation :
  ∃ pg st', color_guess_in order guess wordle st = Ok (pg, st')
            ∧ evaluation guess wordle st pg st'.
Proof.
  assert (∀ i, i ∈ order → i < length guess) as Hg
    by (intros i Hi%order_elem; lia).
  assert (∀ i, i ∈ order → i < length wordle) as Hw
    by (intros i Hi%order_elem; lia).
  destruct (color_guess_in_inv guess wordle order st order_NoDup Hg Hw
              guess_long guess_keys cells_ok) as (pg & wf & st' & Hrun & Hinv).
  exists pg, st'. split; [done|]. by eapply rest_inv_evaluation.
Qed.
End Evaluation.

(** ** The classification of a guess *)

Lemma game_word_long s : game_word s → WORD_LENGTH ≤ length s.
Proof. intros [-> _]. done. Qed.

Lemma game_word_keys s st :
  game_word s → has_alphabet st → ∀ x, x ∈ s → is_Some (st !! x).
Proof.
  intros [_ Hs] Hst x Hx. unfold has_alphabet in Hst.
  rewrite Forall_forall in Hs, Hst. apply Hst, Hs, Hx.
Qed.

(** The classification does not need the legend to be in any particular
    state, only to have the keys the guess needs. *)
Lemma color_guess_in_classified order guess wordle st :
  order ≡ₚ range WORD_LENGTH →
  WORD_LENGTH ≤ length guess → WORD_LENGTH ≤ length wordle →
  (∀ x, x ∈ guess → is_Some (st !! x)) →
  ∃ pg st', color_guess_in order guess wordle st = Ok (pg, st')
            ∧ classified guess wordle pg.
Proof.
  intros Hperm Hg Hw Hkeys.
  set (blank := (λ _ : Text, status_cell " ") <$> st).
  assert (same_keys blank st) as Hsame by apply dom_fmap_L.
  destruct (color_guess_in_evaluation guess wordle order blank Hperm Hg Hw)
    as (pg & st1 & Hrun & Hev).
  - intros x Hx. unfold blank. rewrite lookup_fmap.
    destruct (Hkeys x Hx) as [t ->]. by eexists.
  - unfold legend_ok, blank. apply map_Forall_fmap. intros x t _. simpl. lia.
  - pose proof (color_guess_in_same_keys order guess wordle blank st Hsame) as Ho.
    rewrite Hrun in Ho. simpl in Ho.
    destruct (color_guess_in order guess wordle st) as [[pg' st']|e]; [|done].
    destruct Ho as [<- _]. exists pg, st'. split; [done|]. apply Hev.
Qed.

Lemma color_guess_classified guess wordle st :
  game_word guess → game_word wordle → has_alphabet st →
  ∃ pg st', color_guess guess wordle st = Ok (pg, st') ∧ classified guess wordle pg.
Proof.
  intros Hg Hw Hst. apply color_guess_in_classified; try done.
  - by apply game_word_long.
  - by apply game_word_long.
  - by apply game_word_keys.
Qed.

Lemma count_one_position x (s : word) p q :
  count x s = 1 → s !! p = Some x → s !! q = Some x → p = q.
Proof.
  rewrite <- count_positions. intros Hc Hp Hq.
  assert (∀ j, s !! j = Some x →
               j ∈ filter (λ j, s !! j = Some x) (seq 0 (length s))) as Hin.
  { intros j Hj. apply list_elem_of_filter. split; [done|].
    apply elem_of_seq. apply lookup_lt_Some in Hj. lia. }
  pose proof (Hin p Hp) as Hp'. pose proof (Hin q Hq) as Hq'.
  destruct (filter _ _) as [|a [|b l]]; simpl in Hc; try lia.
  apply list_elem_of_singleton in Hp', Hq'. congruence.
Qed.

Lemma positions_of_elem guess pg x c i :
  i ∈ positions_of guess pg x c ↔ guess !! i = Some x ∧ status_at pg i = c.
Proof.
  unfold positions_of. rewrite list_elem_of_filter, elem_of_seq. split; [tauto|].
  intros [Hx Hc]. split; [done|]. apply lookup_lt_Some in Hx. lia.
Qed.

Lemma elem_length_pos {A} (l : list A) (a : A) : a ∈ l → 0 < length l.
Proof. destruct l; [by intros ?%elem_of_nil | simpl; lia]. Qed.

(** C1. For a guess and a secret of [WORD_LENGTH] uppercase letters and any
    letter [x], [color_guess] returns, and the positions it shows green
    (Correct) for [x] plus the positions it shows yellow (Present) for [x]
    are at most as many as the occurrences of [x] in the secret. *)
Theorem classified_within_budget guess wordle st x :
  game_word guess → game_word wordle → has_alphabet st →
  ∃ pg st',
    color_guess guess wordle st = Ok (pg, st')
    ∧ length (positions_of guess pg x Correct) + length (positions_of guess pg x Present)
      ≤ count x wordle.
Proof.
  intros Hg Hw Hst.
  destruct (color_guess_classified guess wordle st Hg Hw Hst) as (pg & st' & Hrun & Hcl).
  exists pg, st'. split; [done|]. apply Hcl.
Qed.

Lemma classified_within_budget_witness :
  ∃ pg st',
    color_guess (chars "SLEEP") (chars "ELBOW") LETTER_STATUS_init = Ok (pg, st')
    ∧ length (positions_of (chars "SLEEP") pg "E" Correct)
      + length (positions_of (chars "SLEEP") pg "E" Present)
      ≤ count "E" (chars "ELBOW").
Proof.
  apply (classified_within_budget (chars "SLEEP") (chars "ELBOW") LETTER_STATUS_init "E");
    by_computation.
Defined.

Lemma classified_correct_position guess wordle pg x p :
  classified guess wordle pg → p < WORD_LENGTH →
  guess !! p = Some x → wordle !! p = Some x → status_at pg p = Correct.
Proof. intros Hcl Hp Hg Hw. apply (cl_correct _ _ _ Hcl p Hp). congruence. Qed.

(** C2. When a letter occurs once in the secret and the guess holds it at
    that very position and at another one, [color_guess] shows the exact
    occurrence Correct and the other one Absent, whichever comes first (this
    holds for every further occurrence, so in particular when the guess
    holds the letter exactly twice). For the secret STEPS and the guess HEELS
    the classification is Absent, Absent, Correct, Absent, Correct. *)
Theorem exact_match_takes_the_budget :
  (∀ guess wordle st x p q,
      game_word guess → game_word wordle → has_alphabet st →
      count x wordle = 1 → p ≠ q →
      guess !! p = Some x → guess !! q = Some x → wordle !! p = Some x →
      ∃ pg st',
        color_guess guess wordle st = Ok (pg, st')
        ∧ status_at pg p = Correct ∧ status_at pg q = Absent)
  ∧ classification <$>
      returned (color_guess (chars "HEELS") (chars "STEPS") LETTER_STATUS_init)
    = Some [Absent; Absent; Correct; Absent; Correct].
Proof.
  split; [|by vm_compute].
  intros guess wordle st x p q Hg Hw Hst Hone Hpq Hgp Hgq Hwp.
  destruct (color_guess_classified guess wordle st Hg Hw Hst) as (pg & st' & Hrun & Hcl).
  exists pg, st'. split; [done|].
  assert (p < WORD_LENGTH ∧ q < WORD_LENGTH) as [Hp Hq].
  { destruct Hg as [<- _]. split; by eapply lookup_lt_Some. }
  assert (status_at pg p = Correct) as Hcp
    by (by eapply classified_correct_position).
  split; [done|].
  pose proof (cl_budget _ _ _ Hcl x) as Hb. rewrite Hone in Hb.
  assert (0 < length (positions_of guess pg x Correct)) as Hc1.
  { apply (elem_length_pos _ p), positions_of_elem. done. }
  destruct (status_at pg q) eqn:Eq; [| done | |].
  - by apply (cl_seen _ _ _ Hcl q Hq) in Eq.
  - assert (0 < length (positions_of guess pg x Present)) as Hc2; [|lia].
    apply (elem_length_pos _ q), positions_of_elem. done.
  - apply (cl_correct _ _ _ Hcl q Hq) in Eq. destruct Hpq.
    apply (count_one_position x wordle); [done..|congruence].
Qed.

Lemma exact_match_takes_the_budget_witness :
  ∃ pg st',
    color_guess (chars "HEELS") (chars "STEPS") LETTER_STATUS_init = Ok (pg, st')
    ∧ status_at pg 2 = Correct ∧ status_at pg 1 = Absent.
Proof.
  apply (proj1 exact_match_takes_the_budget (chars "HEELS") (chars "STEPS")
           LETTER_STATUS_init "E"%char 2 1);
    first [by_computation | by vm_compute | lia].
Defined.

(** C8. A position is shown Correct exactly when the guess and the secret
    hold the same letter there: the budget test of the first loop never
    fails on an exact match. This does not depend on the order in which the
    first loop visits the positions ([color_guess] visits them in increasing
    order). *)
Theorem correct_iff_exact_match order guess wordle st :
  order ≡ₚ range WORD_LENGTH →
  game_word guess → game_word wordle → has_alphabet st →
  ∃ pg st',
    color_guess_in order guess wordle st = Ok (pg, st')
    ∧ ∀ i, i < WORD_LENGTH → status_at pg i = Correct ↔ guess !! i = wordle !! i.
Proof.
  intros Hperm Hg Hw Hst.
  destruct (color_guess_in_classified order guess wordle st) as (pg & st' & Hrun & Hcl);
    [done | by apply game_word_long.. | by apply game_word_keys |].
  exists pg, st'. split; [done|]. apply Hcl.
Qed.

Lemma correct_iff_exact_match_witness :
  ∃ pg st',
    color_guess_in [4; 2; 0; 3; 1] (chars "HEELS") (chars "STEPS") LETTER_STATUS_init
    = Ok (pg, st')
    ∧ ∀ i, i < WORD_LENGTH →
        status_at pg i = Correct ↔ chars "HEELS" !! i = chars "STEPS" !! i.
Proof.
  apply (correct_iff_exact_match [4; 2; 0; 3; 1] (chars "HEELS") (chars "STEPS")
           LETTER_STATUS_init);
    by_computation.
Defined.

(** C10. On a guess and a secret of [WORD_LENGTH] uppercase letters
    [color_guess] raises nothing: no position is out of range and every
    dictionary lookup finds its key. *)
Theorem color_guess_returns guess wordle st :
  game_word guess → game_word wordle → has_alphabet st →
  ∃ pg st', color_guess guess wordle st = Ok (pg, st').
Proof.
  intros Hg Hw Hst.
  destruct (color_guess_classified guess wordle st Hg Hw Hst) as (pg & st' & Hrun & _).
  eauto.
Qed.

Lemma color_guess_returns_witness :
  ∃ pg st', color_guess (chars "CRANE") (chars "CRANE") LETTER_STATUS_init = Ok (pg, st').
Proof.
  apply (color_guess_returns (chars "CRANE") (chars "CRANE") LETTER_STATUS_init);
    by_computation.
Defined.

(** ** The legend across calls *)

Lemma Ok_default {S A} (r : result (A * S)) (a : A) (s : S) :
  is_Some (returned r) → r = Ok (default a (returned r), default s (left_behind r)).
Proof. destruct r as [[a' s']|e]; [done | by intros [? ?]]. Qed.

Lemma color_guesses_cons guess wordle calls st pgs st' :
  color_guesses ((guess, wordle) :: calls) st = Ok (pgs, st') ↔
  ∃ pg st1 pgs', color_guess guess wordle st = Ok (pg, st1)
                 ∧ color_guesses calls st1 = Ok (pgs', st') ∧ pgs = pg :: pgs'.
Proof.
  simpl. rewrite bind_Ok. split.
  - intros (pg & st1 & Hrun & Hrest). apply bind_Ok in Hrest as (pgs' & st2 & Hrest & Hret).
    injection Hret as <- <-. eauto 10.
  - intros (pg & st1 & pgs' & Hrun & Hrest & ->). exists pg, st1. split; [done|].
    apply bind_Ok. eauto.
Qed.

(** A series of calls keeps the keys of the legend and lowers no status. *)
Lemma color_guesses_legend calls st pgs st' :
  color_guesses calls st = Ok (pgs, st') →
  same_keys st st' ∧ ∀ x, rank (letter_status st x) ≤ rank (letter_status st' x).
Proof.
  revert st pgs. induction calls as [|[guess wordle] calls IH]; intros st pgs.
  - intros [= <- <-]. done.
  - rewrite color_guesses_cons. intros (pg & st1 & pgs' & Hrun & Hrest & _).
    apply color_guess_in_legend in Hrun as [Hdom _ _ Hrank].
    destruct (IH _ _ Hrest) as [Hk Hr]. split.
    + unfold same_keys in *. congruence.
    + intros x. etrans; [apply Hrank | apply Hr].
Qed.

Lemma rank_Correct c : rank Correct ≤ rank c → c = Correct.
Proof. destruct c; simpl; (done || lia). Qed.

(** C9. [color_guess] returns the same styled guess, hence the same
    per-position classification, whenever it is called again with the same
    guess and secret, whatever calls were made in between. *)
Theorem color_guess_deterministic guess wordle st pg st1 calls pgs st2 :
  color_guess guess wordle st = Ok (pg, st1) →
  color_guesses calls st1 = Ok (pgs, st2) →
  ∃ st3, color_guess guess wordle st2 = Ok (pg, st3).
Proof.
  intros Hrun Hcalls.
  assert (same_keys st st2) as Hkeys.
  { apply color_guess_in_legend in Hrun as [Hdom _ _ _].
    apply color_guesses_legend in Hcalls as [Hk _]. unfold same_keys in *. congruence. }
  pose proof (color_guess_in_same_keys (range WORD_LENGTH) guess wordle st st2 Hkeys) as Ho.
  unfold color_guess in *. rewrite Hrun in Ho.
  destruct (color_guess_in _ guess wordle st2) as [[pg' st3]|e]; [|done].
  destruct Ho as [<- _]. eauto.
Qed.

Lemma color_guess_deterministic_witness :
  ∃ pg st1 pgs st2,
    color_guess (chars "HEELS") (chars "STEPS") LETTER_STATUS_init = Ok (pg, st1)
    ∧ color_guesses [(chars "STEEP", chars "STEPS"); (chars "CRANE", chars "BLOOM")] st1
      = Ok (pgs, st2)
    ∧ ∃ st3, color_guess (chars "HEELS") (chars "STEPS") st2 = Ok (pg, st3).
Proof.
  set (r1 := color_guess (chars "HEELS") (chars "STEPS") LETTER_STATUS_init).
  set (st1 := default ∅ (left_behind r1)).
  set (r2 := color_guesses
               [(chars "STEEP", chars "STEPS"); (chars "CRANE", chars "BLOOM")] st1).
  assert (r1 = Ok (default (new_Text []) (returned r1), st1)) as H1
    by (apply Ok_default; by_computation).
  assert (r2 = Ok (default [] (returned r2), default ∅ (left_behind r2))) as H2
    by (apply Ok_default; by_computation).
  eexists _, _, _, _. split; [exact H1|]. split; [exact H2|].
  exact (color_guess_deterministic _ _ _ _ _ _ _ _ H1 H2).
Defined.




(** C7. Along the guesses of a round, evaluated one after the other against
    the round's secret, no letter's status in the legend goes down in the
    order Unseen < Absent < Present < Correct; a letter that is Correct
    stays Correct, whatever the later guesses show for it. *)
Theorem letter_status_never_lowered wordle guesses st pgs st' x :
  color_guesses (round_calls wordle guesses) st = Ok (pgs, st') →
  rank (letter_status st x) ≤ rank (letter_status st' x)
  ∧ (letter_status st x = Correct → letter_status st' x = Correct).
Proof.
  intros Hrun. apply color_guesses_legend in Hrun as [_ Hrank].
  split; [apply Hrank|]. intros Hc. apply rank_Correct. rewrite <- Hc. apply Hrank.
Qed.

Lemma letter_status_never_lowered_witness :
  ∃ pgs0 st pgs st',
    color_guesses (round_calls (chars "STEPS") [chars "HEELS"]) LETTER_STATUS_init
    = Ok (pgs0, st)
    ∧ color_guesses (round_calls (chars "STEPS") [chars "EERIE"; chars "CRANE"]) st
      = Ok (pgs, st')
    ∧ (λ pg, status_at pg 1) <$> pgs !! 0 = Some Absent
    ∧ letter_status st "E" = Correct
    ∧ letter_status st' "E" = Correct.
Proof.
  set (r0 := color_guesses (round_calls (chars "STEPS") [chars "HEELS"]) LETTER_STATUS_init).
  set (st := default ∅ (left_behind r0)).
  set (r := color_guesses (round_calls (chars "STEPS") [chars "EERIE"; chars "CRANE"]) st).
  assert (r0 = Ok (default [] (returned r0), st)) as H0
    by (apply Ok_default; by_computation).
  assert (r = Ok (default [] (returned r), default ∅ (left_behind r))) as H1
    by (apply Ok_default; by_computation).
  assert (letter_status st "E" = Correct) as HE by by_computation.
  eexists _, _, _, _. split; [exact H0|]. split; [exact H1|].
  split; [by vm_compute|]. split; [exact HE|].
  exact (proj2 (letter_status_never_lowered _ _ _ _ _ "E"%char H1) HE).
Defined.

(** ** Upgrading the legend *)

Lemma has_alphabet_same_keys st st' :
  same_keys st st' → has_alphabet st → has_alphabet st'.
Proof.
  unfold same_keys, has_alphabet. intros Hk Hst.
  eapply Forall_impl; [exact Hst|]. intros x Hx. simpl in *.
  apply elem_of_dom. rewrite <- Hk. by apply elem_of_dom.
Qed.

Lemma legend_evolves_ok guess st st' :
  legend_evolves guess st st' → legend_ok st → legend_ok st'.
Proof.
  intros [_ _ Hcell _] Hok x t' Hx. simpl.
  destruct (Hcell x t' Hx) as (t & _ & _ & Ht & -> & _). by apply (Hok x t).
Qed.

(** The call on a game word against a secret long enough, from a legend
    with all its cells. *)
Lemma color_guess_evaluation guess wordle st :
  game_word guess → WORD_LENGTH ≤ length wordle → has_alphabet st → legend_ok st →
  ∃ pg st', color_guess guess wordle st = Ok (pg, st')
            ∧ evaluation guess wordle st pg st'
            ∧ has_alphabet st' ∧ legend_ok st'.
Proof.
  intros Hg Hw Hst Hok.
  destruct (color_guess_in_evaluation guess wordle (range WORD_LENGTH) st)
    as (pg & st' & Hrun & Hev); [done | by apply game_word_long | done
                                 | by apply game_word_keys | done |].
  exists pg, st'. split; [done|]. split; [done|].
  pose proof (color_guess_in_legend _ _ _ _ _ _ Hrun) as Hevolves. split.
  - eapply has_alphabet_same_keys; [|done]. symmetry. apply Hevolves.
  - by eapply legend_evolves_ok.
Qed.




(** Within a round the exception does not arise: in a legend built from the
    fresh one by guesses against the round's secret, a letter stored Absent
    does not occur in the secret, so no guess shows it Present. *)
Lemma fresh_legend_unstyled x : letter_status LETTER_STATUS_init x = Unseen.
Proof.
  assert (map_Forall (λ _ t, spans t = []) LETTER_STATUS_init) as Hall by by_computation.
  unfold letter_status. destruct (LETTER_STATUS_init !! x) as [t|] eqn:Ex; [|done].
  unfold status_at, style_at. by rewrite (Hall x t Ex).
Qed.

Lemma round_legend wordle guesses :
  WORD_LENGTH ≤ length wordle → Forall game_word guesses →
  ∀ st, has_alphabet st → legend_ok st →
        (∀ x, letter_status st x = Absent → x ∉ wordle) →
  ∃ pgs st', color_guesses (round_calls wordle guesses) st = Ok (pgs, st')
             ∧ has_alphabet st' ∧ legend_ok st'
             ∧ ∀ x, letter_status st' x = Absent → x ∉ wordle.
Proof.
  intros Hw. induction 1 as [|guess guesses Hg Hgs IH]; intros st Hst Hok Habs.
  - exists [], st. done.
  - destruct (color_guess_evaluation guess wordle st Hg Hw Hst Hok)
      as (pg & st1 & Hrun & Hev & Hst1 & Hok1).
    destruct (IH st1 Hst1 Hok1) as (pgs & st' & Hrest & Hfinal).
    + intros x Hx. destruct (ev_legend_absent _ _ _ _ _ Hev x Hx); auto.
    + exists (pg :: pgs), st'. split; [|done].
      apply color_guesses_cons. eauto 10.
Qed.

Lemma round_absent_not_in_secret wordle guesses pgs st x :
  WORD_LENGTH ≤ length wordle → Forall game_word guesses →
  color_guesses (round_calls wordle guesses) LETTER_STATUS_init = Ok (pgs, st) →
  letter_status st x = Absent → x ∉ wordle.
Proof.
  intros Hw Hgs Hrun.
  destruct (round_legend wordle guesses Hw Hgs LETTER_STATUS_init)
    as (pgs' & st' & Hrun' & _ & _ & Habs); [by_computation.. | |].
  - intros y. by rewrite fresh_legend_unstyled.
  - rewrite Hrun in Hrun'. injection Hrun' as <- <-. apply Habs.
Qed.

(** ** The round *)

Lemma read_lines_submitted wordlist lines :
  match submitted wordlist lines with
  | [] => read_lines wordlist lines = Raise EOFError
  | guess :: rest =>
      ∃ lines', read_lines wordlist lines = Ok (guess, lines')
                ∧ submitted wordlist lines' = rest
  end.
Proof.
  induction lines as [|line lines IH]; [done|].
  unfold submitted in *. rewrite fmap_cons, filter_cons. simpl.
  destruct (decide (length (upper line) = WORD_LENGTH ∧ upper line ∈ wordlist))
    as [[Hlen Hin]|Hno].
  - rewrite bool_decide_false by (intros Hne; exact (Hne Hlen)).
    rewrite bool_decide_false by (intros Hne; exact (Hne Hin)). eauto.
  - case_bool_decide; [done|]. case_bool_decide; [done|].
    by destruct Hno.
Qed.

Lemma read_input_submitted tries w :
  match submitted (WORDLIST w) (stdin w) with
  | [] => read_input tries w = Raise EOFError
  | guess :: rest =>
      ∃ lines',
        read_input tries w = Ok (guess, mkWorld (WORDLIST w) (LETTER_STATUS w) lines')
                ∧ submitted (WORDLIST w) lines' = rest
  end.
Proof.
  unfold read_input. pose proof (read_lines_submitted (WORDLIST w) (stdin w)) as H.
  destruct (submitted (WORDLIST w) (stdin w)) as [|guess rest].
  - by rewrite H.
  - destruct H as (lines' & -> & Hrest). eauto.
Qed.


Lemma add_to_board_Ok guess wordle board tries w board' w' :
  add_to_board guess wordle board tries w = Ok (board', w') ↔
  ∃ pg st', color_guess guess wordle (LETTER_STATUS w) = Ok (pg, st')
            ∧ tries < length board
            ∧ board' = <[tries := pg]> board
            ∧ w' = mkWorld (WORDLIST w) st' (stdin w).
Proof.
  unfold add_to_board, on_status, bind, ret, raise.
  destruct (color_guess guess wordle (LETTER_STATUS w)) as [[pg st']|e].
  - case_bool_decide.
    + split; [intros [= <- <-]; eauto 10 | intros (? & ? & [= <- <-] & _ & -> & ->); done].
    + split; [done | intros (? & ? & _ & ? & _); done].
  - split; [done | intros (? & ? & ? & _); done].
Qed.

(** What an outcome of the loop says about the guesses it was handed: a win
    came with the first guess equal to the secret, within the tries left; a
    loss came after as many guesses as there were tries left, none of them
    the secret. Either way the legend is the one the calls of [color_guess]
    on the guesses taken leave behind. *)
Lemma game_loop_outcome wordle fuel :
  ∀ board tries w b w',
    tries ≤ TRIES_LIMIT →
    game_loop fuel wordle board tries w = Ok (b, w') →
    let guesses := submitted (WORDLIST w) (stdin w) in
    ∃ n, WORDLIST w' = WORDLIST w
         ∧ n ≤ length guesses ∧ tries + n ≤ TRIES_LIMIT
         ∧ submitted (WORDLIST w') (stdin w') = drop n guesses
         ∧ (if b then ∃ k, n = S k ∧ guesses !! k = Some wordle
            else tries + n = TRIES_LIMIT)
         ∧ (∀ j, (if b then S j else j) < n → guesses !! j ≠ Some wordle)
         ∧ ∃ pgs, color_guesses (round_calls wordle (take n guesses)) (LETTER_STATUS w)
                  = Ok (pgs, LETTER_STATUS w').
Proof.
  assert (∀ tries w b w',
            tries ≤ TRIES_LIMIT → ¬ tries < TRIES_LIMIT →
            @ret World bool false w = Ok (b, w') →
            let guesses := submitted (WORDLIST w) (stdin w) in
            ∃ n, WORDLIST w' = WORDLIST w
                 ∧ n ≤ length guesses ∧ tries + n ≤ TRIES_LIMIT
                 ∧ submitted (WORDLIST w') (stdin w') = drop n guesses
                 ∧ (if b then ∃ k, n = S k ∧ guesses !! k = Some wordle
                    else tries + n = TRIES_LIMIT)
                 ∧ (∀ j, (if b then S j else j) < n → guesses !! j ≠ Some wordle)
                 ∧ ∃ pgs, color_guesses (round_calls wordle (take n guesses))
                            (LETTER_STATUS w) = Ok (pgs, LETTER_STATUS w')) as Hstop.
  { intros tries w b w' Hle Hge [= <- <-]. exists 0. rewrite drop_0.
    split; [done|]. split; [lia|]. split; [lia|]. split; [done|]. split; [lia|].
    split; [intros; lia|]. by exists []. }
  induction fuel as [|fuel IH]; intros board tries w b w' Hle; simpl;
    (case_bool_decide as Htries; [|by apply Hstop]).
  - done.
  - rewrite bind_Ok. intros (guess & w1 & Hread & Hrest).
    apply bind_Ok in Hrest as (board1 & w2 & Hadd & Hrest).
    pose proof (read_input_submitted tries w) as Hsub. rewrite Hread in Hsub.
    destruct (submitted (WORDLIST w) (stdin w)) as [|guess' rest] eqn:Eg; [done|].
    destruct Hsub as (lines' & [= <- ->] & Hlines).
    apply add_to_board_Ok in Hadd as (pg & st' & Hcolor & _ & _ & ->). simpl in *.
    case_bool_decide as Hwin.
    + injection Hrest as <- <-. subst guess. exists 1. simpl. rewrite drop_0.
      split; [done|]. split; [lia|]. split; [lia|]. split; [done|].
      split; [by exists 0|]. split; [intros; lia|].
      exists [pg]. unfold bind, ret. by rewrite Hcolor.
    + apply IH in Hrest; [|lia]. simpl in Hrest. rewrite Hlines in Hrest.
      destruct Hrest as (n & Hwl & Hlen & Hn & Hdrop & Hb & Hnot & pgs & Hpgs).
      exists (S n). simpl.
      split; [done|]. split; [lia|]. split; [lia|]. split; [done|]. split; [|split].
      * destruct b; [|lia]. destruct Hb as (k & -> & Hk). by exists (S k).
      * intros [|j] Hj; simpl; [congruence|]. apply Hnot. destruct b; lia.
      * exists (pg :: pgs). unfold bind, ret. by rewrite Hcolor, Hpgs.
Qed.


(** *** The fuel of [game] is enough *)

Lemma for_each_Raise {S A} (body : nat → A → M S A) todo a st e :
  for_each todo body a st = Raise e → ∃ i a' st', body i a' st' = Raise e.
Proof.
  revert a st. induction todo as [|i todo IH]; intros a st; simpl; [done|].
  unfold bind. destruct (body i a st) as [[a1 st1]|e1] eqn:Hb.
  - apply IH.
  - intros [= ->]. eauto.
Qed.

Lemma color_guess_in_Raise order guess wordle st e :
  color_guess_in order guess wordle st = Raise e → e = IndexError ∨ e = KeyError.
Proof.
  unfold color_guess_in, bind.
  destruct (for_each order _ _ st) as [[loc1 st1]|e1] eqn:H1.
  - destruct (for_each (range WORD_LENGTH) _ _ st1) as [[loc2 st2]|e2] eqn:H2; [done|].
    intros [= ->]. apply for_each_Raise in H2 as (i & [pg wf] & st' & Hb).
    revert Hb. unfold rest_body. unfold_monad.
    repeat (case_match; simplify_eq; try done); intros [= <-]; auto.
  - intros [= ->]. apply for_each_Raise in H1 as (i & [pg wf] & st' & Hb).
    revert Hb. unfold green_body. unfold_monad.
    repeat (case_match; simplify_eq; try done); intros [= <-]; auto.
Qed.

Lemma read_lines_Raise wordlist lines e :
  read_lines wordlist lines = Raise e → e = EOFError.
Proof.
  induction lines as [|line lines IH]; simpl; [by intros [= <-]|].
  repeat case_bool_decide; done.
Qed.

Lemma game_loop_fuel wordle fuel :
  ∀ board tries w,
    TRIES_LIMIT ≤ tries + fuel → game_loop fuel wordle board tries w ≠ Raise OutOfFuel.
Proof.
  induction fuel as [|fuel IH]; intros board tries w Hfuel; simpl;
    (case_bool_decide as Htries; [|done]); [lia|].
  unfold bind at 1, read_input.
  destruct (read_lines (WORDLIST w) (stdin w)) as [[guess lines']|e] eqn:Hread.
  - unfold bind at 1, add_to_board, on_status, bind at 1. simpl.
    destruct (color_guess guess wordle (LETTER_STATUS w)) as [[pg st']|e] eqn:Hcolor.
    + unfold ret at 1, raise. case_bool_decide; [|done].
      case_bool_decide; [done|]. apply IH. lia.
    + apply color_guess_in_Raise in Hcolor as [-> | ->]; done.
  - apply read_lines_Raise in Hread as ->. done.
Qed.

(** [game] never stops for want of fuel: what it raises, Python raises. *)
Lemma game_fuel_suffices wordle w : game wordle w ≠ Raise OutOfFuel.
Proof. apply game_loop_fuel. lia. Qed.

(** *** Winning and losing *)







(** A secret shorter than [WORD_LENGTH] (the command line may give one) ends
    the round on the first guess with an [IndexError], neither won nor
    lost. *)
Example short_secret_raises :
  game (chars "ABC") (mkWorld [chars "CRANE"] LETTER_STATUS_init [chars "crane"])
  = Raise IndexError.
Proof. by vm_compute. Qed.

(** The legend a round ends with is the one the calls of [color_guess] on
    the guesses taken, against the round's secret, leave behind. *)
Lemma game_legend wordle w b w' :
  game wordle w = Ok (b, w') →
  ∃ n pgs,
    color_guesses (round_calls wordle (take n (submitted (WORDLIST w) (stdin w))))
      (LETTER_STATUS w)
    = Ok (pgs, LETTER_STATUS w').
Proof.
  intros Hrun. apply game_loop_outcome in Hrun; [|lia].
  destruct Hrun as (n & _ & _ & _ & _ & _ & _ & pgs & Hpgs). eauto.
Qed.

(** ** The scenarios of the docstring of [color_guess] *)

Example steps_heels :
  classification <$>
    returned (color_guess (chars "HEELS") (chars "STEPS") LETTER_STATUS_init)
  = Some [Absent; Absent; Correct; Absent; Correct].
Proof. by vm_compute. Qed.

Example elbow_sleep :
  classification <$>
    returned (color_guess (chars "SLEEP") (chars "ELBOW") LETTER_STATUS_init)
  = Some [Absent; Correct; Present; Absent; Absent].
Proof. by vm_compute. Qed.

Example crane_crane :
  classification <$>
    returned (color_guess (chars "CRANE") (chars "CRANE") LETTER_STATUS_init)
  = Some [Correct; Correct; Correct; Correct; Correct].
Proof. by vm_compute. Qed.
